(** * A shallow embedding of the TeenyJVM interpreter ([jvm.c])

    The file follows [jvm.c]: the optional return value, the interpreter
    loop [execute] with one case per opcode, and the driver [main].

    Conventions.
    - C integers are mathematical integers ([Z]) with every conversion
      written out: [int32_t x] is the value of [x] stored in an [int32_t],
      [size_t x] in a [size_t], and so on.
    - The arithmetic of [int] is the one of CompCert C: [+], [-], [*] and
      unary [-] wrap around, [/] and [%] are undefined on a zero divisor
      and on [INT32_MIN / -1], and a shift is undefined unless its count
      lies in [0, 32).
    - Whatever C leaves undefined (an access outside an array, a shift by
      an out-of-range count, ...) is the fault [UndefinedBehaviour]; a
      failed [assert] is the fault [AssertionFailure].
    - [stack_idx] and the indices [pc + 1] and [pc + 2] of the operand
      bytes are written without wrap-around: [stack_idx] stays within the
      operand stack (lemma [step_stack_bounds]), and [pc] is below
      [code_length], a [u4] of the class file, whenever a byte is read.
    - [execute] is a loop around a recursive call; it is defined by
      recursion on a bound ("fuel") that is decreased by every loop
      iteration, and the bound running out is the fault [OutOfFuel]. A
      result within a bound is the result within every larger bound
      (lemma [run_more_fuel]). *)

From Stdlib Require Import ZArith Lia Ascii.
From stdpp Require Import base tactics option list numbers strings.

Local Open Scope Z_scope.

(** ** Faults and the error monad *)

Inductive fault :=
  | AssertionFailure (expr : string)
  | UndefinedBehaviour
  | OutOfFuel.

Inductive result (A : Type) :=
  | Ok (a : A)
  | Fault (f : fault).

Arguments Ok {A} a.
Arguments Fault {A} f.

Global Instance result_ret : MRet result := λ A a, Ok a.

Global Instance result_bind : MBind result := λ A B k m,
  match m with
  | Ok a => k a
  | Fault f => Fault f
  end.

(** [assert(cond)] of <assert.h>; [expr] is the text of the condition. *)
Definition assert (cond : bool) (expr : string) : result unit :=
  if cond then Ok tt else Fault (AssertionFailure expr).

(** ** Machine integers *)

(** The value of [x] after conversion to a signed type of [w] bits. *)
Definition signed (w : Z) (x : Z) : Z := (x + 2 ^ (w - 1)) mod 2 ^ w - 2 ^ (w - 1).

(** The value of [x] after conversion to an unsigned type of [w] bits. *)
Definition unsigned (w : Z) (x : Z) : Z := x mod 2 ^ w.

Definition int8_t : Z → Z := signed 8.
Definition int16_t : Z → Z := signed 16.
Definition int32_t : Z → Z := signed 32.
Definition uint8_t : Z → Z := unsigned 8.
Definition uint32_t : Z → Z := unsigned 32.
Definition size_t : Z → Z := unsigned 64.

Definition INT32_MIN : Z := - 2 ^ 31.
Definition INT32_MAX : Z := 2 ^ 31 - 1.

(** [x / y] and [x % y] on [int]: truncation towards zero. *)
Definition c_div (x y : Z) : result Z :=
  if (y =? 0) || ((x =? INT32_MIN) && (y =? -1)) then Fault UndefinedBehaviour
  else Ok (Z.quot x y).

Definition c_rem (x y : Z) : result Z :=
  if (y =? 0) || ((x =? INT32_MIN) && (y =? -1)) then Fault UndefinedBehaviour
  else Ok (Z.rem x y).

(** [x << n] on [int], [x >> n] on [int] and [x >> n] on [unsigned int]. *)
Definition c_shl (x n : Z) : result Z :=
  if (0 <=? n) && (n <? 32) then Ok (int32_t (Z.shiftl x n))
  else Fault UndefinedBehaviour.

Definition c_shr (x n : Z) : result Z :=
  if (0 <=? n) && (n <? 32) then Ok (Z.shiftr x n)
  else Fault UndefinedBehaviour.

Definition c_shru (x n : Z) : result Z :=
  if (0 <=? n) && (n <? 32) then Ok (Z.shiftr x n)
  else Fault UndefinedBehaviour.

(** ** Arrays

    A C array is a list; [a[i]] outside the array is undefined. *)

Definition load {A : Type} (a : list A) (i : Z) : result A :=
  if 0 <=? i then
    match a !! Z.to_nat i with
    | Some x => Ok x
    | None => Fault UndefinedBehaviour
    end
  else Fault UndefinedBehaviour.

Definition store {A : Type} (a : list A) (i : Z) (x : A) : result (list A) :=
  if (0 <=? i) && (i <? Z.of_nat (length a)) then Ok (<[Z.to_nat i := x]> a)
  else Fault UndefinedBehaviour.

(** [calloc(nmemb, size)] used as an array of [int32_t]: both arguments
    are converted to [size_t]. The allocation fails when the byte count
    does not fit a [size_t]; the null pointer it then returns is the array
    without elements, every access to which is undefined. Otherwise the
    array is zeroed. Memory is not bounded otherwise. *)
Definition calloc (nmemb size : Z) : list Z :=
  let bytes := size_t nmemb * size_t size in
  if bytes <? 2 ^ 64 then replicate (Z.to_nat (bytes / 4)) 0 else [].

(** ** The heap ([heap.h]) *)

(** Modelled from the spec: [heap.h] is not part of the sources. The heap
    is "an ordered sequence of owned array objects"; [heap_add] "appends
    and returns the new index", indices "start at 0 and increase by one
    per call"; [heap_get] "retrieves by index" and is "undefined if [ref]
    was never returned by [add]". *)
Abbreviation heap_t := (list (list Z)).

Definition heap_init : heap_t := [].

Definition heap_add (heap : heap_t) (array : list Z) : heap_t * Z :=
  (heap ++ [array], Z.of_nat (length heap)).

Definition heap_get (heap : heap_t) (ref : Z) : result (list Z) :=
  load heap ref.

(** The assignment [heap_get(heap, ref)[i] = x]: [heap_get] returns a
    mutable view, so the write lands in the buffer the heap holds. *)
Definition heap_set (heap : heap_t) (ref i x : Z) : result heap_t :=
  array ← heap_get heap ref;
  array ← store array i x;
  store heap ref array.

(** ** The class file ([read_class.h]) *)

(** Modelled from the spec: [read_class.h] is not part of the sources.
    Per method the core needs "[code: bytes], [code_length], [max_stack],
    [max_locals], [name], [descriptor]"; in the source they are reached as
    [method->code.max_stack], [method->code.code[pc]], ... *)
Record code_t := {
  max_stack : Z;
  max_locals : Z;
  code_length : Z;
  code : list Z;
}.

Record method_t := {
  name : string;
  descriptor : string;
  code_attribute : code_t;
}.

(** Modelled from the spec: the constant pool is an "array of tagged
    constants; only [CONSTANT_Integer] and [CONSTANT_MethodRef] are
    consulted by the core". A method reference is kept resolved to the
    name and descriptor it names. *)
Inductive cp_info :=
  | CONSTANT_Integer_info (bytes : Z)
  | CONSTANT_Methodref_info (name descriptor : string)
  | CONSTANT_other.

Record class_file_t := {
  constant_pool : list cp_info;
  methods : list method_t;
}.

(** The lookups of the class view that [jvm.c] calls. Their code is not
    part of the sources, so the interpreter is defined over any
    implementation of them; a lookup that finds nothing (a null pointer in
    C) is [None]. *)
Class ClassView := {
  find_method : string → string → class_file_t → option method_t;
  find_method_from_index : Z → class_file_t → option method_t;
  get_number_of_parameters : method_t → Z;
}.

(** [method->code.code[i]], an element of type [uint8_t]. *)
Definition fetch (method : method_t) (i : Z) : result Z :=
  b ← load (code (code_attribute method)) i;
  Ok (uint8_t b).

(** [((CONSTANT_Integer_info * ) class->constant_pool[i].info)->bytes] *)
Definition integer_constant (class : class_file_t) (i : Z) : result Z :=
  c ← load (constant_pool class) i;
  match c with
  | CONSTANT_Integer_info bytes => Ok bytes
  | _ => Fault UndefinedBehaviour
  end.

(** ** Opcodes ([jvm.h]) *)

(** Modelled from the spec: [jvm.h] is not part of the sources. The enum
    [jvm_instruction_t] has one constant per opcode the interpreter names;
    their values "must match the constants defined by the class-file
    specification", and the ranges [i_iconst_m1 .. i_iconst_5],
    [i_iload_0 .. i_iload_3], ... are contiguous. *)
Inductive jvm_instruction_t :=
  | i_nop
  | i_iconst_m1 | i_iconst_0 | i_iconst_1 | i_iconst_2 | i_iconst_3
  | i_iconst_4 | i_iconst_5
  | i_bipush | i_sipush | i_ldc
  | i_iload | i_aload
  | i_iload_0 | i_iload_1 | i_iload_2 | i_iload_3
  | i_aload_0 | i_aload_1 | i_aload_2 | i_aload_3
  | i_iaload
  | i_istore | i_astore
  | i_istore_0 | i_istore_1 | i_istore_2 | i_istore_3
  | i_astore_0 | i_astore_1 | i_astore_2 | i_astore_3
  | i_iastore
  | i_dup
  | i_iadd | i_isub | i_imul | i_idiv | i_irem | i_ineg
  | i_ishl | i_ishr | i_iushr | i_iand | i_ior | i_ixor
  | i_iinc
  | i_ifeq | i_ifne | i_iflt | i_ifge | i_ifgt | i_ifle
  | i_if_icmpeq | i_if_icmpne | i_if_icmplt | i_if_icmpge | i_if_icmpgt
  | i_if_icmple
  | i_goto
  | i_ireturn | i_areturn | i_return
  | i_getstatic | i_invokevirtual | i_invokestatic
  | i_newarray | i_arraylength.

Definition opcode (i : jvm_instruction_t) : Z :=
  match i with
  | i_nop => 0x00
  | i_iconst_m1 => 0x02 | i_iconst_0 => 0x03 | i_iconst_1 => 0x04
  | i_iconst_2 => 0x05 | i_iconst_3 => 0x06 | i_iconst_4 => 0x07
  | i_iconst_5 => 0x08
  | i_bipush => 0x10 | i_sipush => 0x11 | i_ldc => 0x12
  | i_iload => 0x15 | i_aload => 0x19
  | i_iload_0 => 0x1a | i_iload_1 => 0x1b | i_iload_2 => 0x1c
  | i_iload_3 => 0x1d
  | i_aload_0 => 0x2a | i_aload_1 => 0x2b | i_aload_2 => 0x2c
  | i_aload_3 => 0x2d
  | i_iaload => 0x2e
  | i_istore => 0x36 | i_astore => 0x3a
  | i_istore_0 => 0x3b | i_istore_1 => 0x3c | i_istore_2 => 0x3d
  | i_istore_3 => 0x3e
  | i_astore_0 => 0x4b | i_astore_1 => 0x4c | i_astore_2 => 0x4d
  | i_astore_3 => 0x4e
  | i_iastore => 0x4f
  | i_dup => 0x59
  | i_iadd => 0x60 | i_isub => 0x64 | i_imul => 0x68 | i_idiv => 0x6c
  | i_irem => 0x70 | i_ineg => 0x74
  | i_ishl => 0x78 | i_ishr => 0x7a | i_iushr => 0x7c
  | i_iand => 0x7e | i_ior => 0x80 | i_ixor => 0x82
  | i_iinc => 0x84
  | i_ifeq => 0x99 | i_ifne => 0x9a | i_iflt => 0x9b | i_ifge => 0x9c
  | i_ifgt => 0x9d | i_ifle => 0x9e
  | i_if_icmpeq => 0x9f | i_if_icmpne => 0xa0 | i_if_icmplt => 0xa1
  | i_if_icmpge => 0xa2 | i_if_icmpgt => 0xa3 | i_if_icmple => 0xa4
  | i_goto => 0xa7
  | i_ireturn => 0xac | i_areturn => 0xb0 | i_return => 0xb1
  | i_getstatic => 0xb2 | i_invokevirtual => 0xb6 | i_invokestatic => 0xb8
  | i_newarray => 0xbc | i_arraylength => 0xbe
  end.

Definition instructions : list jvm_instruction_t :=
  [ i_nop; i_iconst_m1; i_iconst_0; i_iconst_1; i_iconst_2; i_iconst_3;
    i_iconst_4; i_iconst_5; i_bipush; i_sipush; i_ldc; i_iload; i_aload;
    i_iload_0; i_iload_1; i_iload_2; i_iload_3;
    i_aload_0; i_aload_1; i_aload_2; i_aload_3; i_iaload;
    i_istore; i_astore; i_istore_0; i_istore_1; i_istore_2; i_istore_3;
    i_astore_0; i_astore_1; i_astore_2; i_astore_3; i_iastore; i_dup;
    i_iadd; i_isub; i_imul; i_idiv; i_irem; i_ineg;
    i_ishl; i_ishr; i_iushr; i_iand; i_ior; i_ixor; i_iinc;
    i_ifeq; i_ifne; i_iflt; i_ifge; i_ifgt; i_ifle;
    i_if_icmpeq; i_if_icmpne; i_if_icmplt; i_if_icmpge; i_if_icmpgt;
    i_if_icmple; i_goto; i_ireturn; i_areturn; i_return;
    i_getstatic; i_invokevirtual; i_invokestatic; i_newarray;
    i_arraylength ].

(** The case label of [switch (method->code.code[pc])] that a byte
    selects, if any. *)
Definition decode (byte : Z) : option jvm_instruction_t :=
  List.find (λ i, opcode i =? byte) instructions.

(** ** The interpreter state *)

(** The return value of a Java method: either void or an int or a
    reference. *)
Record optional_value_t := {
  has_value : bool;
  value : Z;
}.

(** What [execute] works on: its variables [pc], [operand_stack] and
    [stack_idx], the array [locals] it is passed, the heap it shares with
    its caller, and the integers printed so far (one line each). *)
Record state := State {
  pc : Z;
  operand_stack : list Z;
  stack_idx : Z;
  locals : list Z;
  heap : heap_t;
  stdout : list Z;
}.

(** One turn of the [while] loop either reaches its [break] or returns. *)
Inductive step_result :=
  | Continue (s : state)
  | Return (result : optional_value_t) (heap : heap_t) (stdout : list Z).

(** What a call of [execute] yields, and the type of [execute] itself. *)
Definition returned : Type := optional_value_t * heap_t * list Z.
Definition execute_t : Type :=
  method_t → list Z → heap_t → list Z → result returned.

(** [int16_t b1 = method->code.code[pc + 1];
     int8_t b2 = method->code.code[pc + 2];] and then [(b1 << 8) | b2]. *)
Definition operand16 (method : method_t) (pc : Z) : result Z :=
  b1 ← fetch method (pc + 1);
  let b1 := int16_t b1 in
  b2 ← fetch method (pc + 2);
  let b2 := int8_t b2 in
  Ok (Z.lor (Z.shiftl b1 8) b2).

(** The body shared by the conditional branches:
    [if (cond) { ...; pc += ((b1 << 8) | b2); } else { pc += 3; }] *)
Definition branch (method : method_t) (pc : Z) (cond : bool) : result Z :=
  if cond then
    offset ← operand16 method pc;
    Ok (size_t (pc + offset))
  else Ok (size_t (pc + 3)).

(** [for (int32_t i = num_params - 1; i >= 0; i--) {
       stack_idx -= 1; callee_locals[i] = operand_stack[stack_idx]; }],
    with [n] iterations left, that is [i = n - 1]. *)
Fixpoint pop_params (n : nat) (operand_stack : list Z) (stack_idx : Z)
    (callee_locals : list Z) : result (Z * list Z) :=
  match n with
  | O => Ok (stack_idx, callee_locals)
  | S i =>
      let stack_idx := stack_idx - 1 in
      x ← load operand_stack stack_idx;
      callee_locals ← store callee_locals (Z.of_nat i) x;
      pop_params i operand_stack stack_idx callee_locals
  end.

(** [for (int i = 1; i <= n; i++) { array[i] = 0; }], with [count]
    iterations left. *)
Fixpoint clear_from (count : nat) (array : list Z) (i : Z) : result (list Z) :=
  match count with
  | O => Ok array
  | S count =>
      array ← store array i 0;
      clear_from count array (i + 1)
  end.

(** ** The interpreter loop *)

Section Execute.
Context `{CV : ClassView}.

(** The body of [while (pc < method->code.code_length) { switch ... }]:
    one case per [case] of the source, in the order of [jvm_instruction_t].
    The [switch] has no [default]: a byte that matches no label leaves the
    [switch] with every variable as it was. [execute] is the interpreter
    that case [i_invokestatic] calls. *)
Definition step (execute : execute_t) (method : method_t)
    (class : class_file_t) (s : state) : result step_result :=
  let '(State pc operand_stack stack_idx locals heap out) := s in
  byte ← fetch method pc;
  match decode byte with
  | None => Ok (Continue s)
  | Some i_nop =>
      Ok (Continue (State (size_t (pc + 1)) operand_stack stack_idx locals heap out))
  | Some (i_iconst_m1 | i_iconst_0 | i_iconst_1 | i_iconst_2 | i_iconst_3
         | i_iconst_4 | i_iconst_5) =>
      operand_stack ← store operand_stack stack_idx (int32_t byte - opcode i_iconst_0);
      Ok (Continue (State (size_t (pc + 1)) operand_stack (stack_idx + 1) locals heap out))
  | Some i_bipush =>
      b ← fetch method (pc + 1);
      operand_stack ← store operand_stack stack_idx (int32_t (int8_t b));
      Ok (Continue (State (size_t (pc + 2)) operand_stack (stack_idx + 1) locals heap out))
  | Some i_sipush =>
      b1 ← fetch method (pc + 1);
      b2 ← fetch method (pc + 2);
      operand_stack ← store operand_stack stack_idx (int16_t (Z.lor (Z.shiftl b1 8) b2));
      Ok (Continue (State (size_t (pc + 3)) operand_stack (stack_idx + 1) locals heap out))
  | Some i_ldc =>
      b ← fetch method (pc + 1);
      let const_idx := int32_t b - 1 in
      x ← integer_constant class const_idx;
      operand_stack ← store operand_stack stack_idx x;
      Ok (Continue (State (size_t (pc + 2)) operand_stack (stack_idx + 1) locals heap out))
  | Some (i_iload | i_aload) =>
      n ← fetch method (pc + 1);
      x ← load locals n;
      operand_stack ← store operand_stack stack_idx x;
      Ok (Continue (State (size_t (pc + 2)) operand_stack (stack_idx + 1) locals heap out))
  | Some (i_iload_0 | i_iload_1 | i_iload_2 | i_iload_3) =>
      x ← load locals (int32_t byte - opcode i_iload_0);
      operand_stack ← store operand_stack stack_idx x;
      Ok (Continue (State (size_t (pc + 1)) operand_stack (stack_idx + 1) locals heap out))
  | Some (i_aload_0 | i_aload_1 | i_aload_2 | i_aload_3) =>
      x ← load locals (int32_t byte - opcode i_aload_0);
      operand_stack ← store operand_stack stack_idx x;
      Ok (Continue (State (size_t (pc + 1)) operand_stack (stack_idx + 1) locals heap out))
  | Some i_iaload =>
      let stack_idx := stack_idx - 1 in
      ref ← load operand_stack (stack_idx - 1);
      array ← heap_get heap ref;
      index ← load operand_stack stack_idx;
      x ← load array (int32_t (index + 1));
      operand_stack ← store operand_stack (stack_idx - 1) x;
      Ok (Continue (State (size_t (pc + 1)) operand_stack stack_idx locals heap out))
  | Some (i_istore | i_astore) =>
      let stack_idx := stack_idx - 1 in
      n ← fetch method (pc + 1);
      x ← load operand_stack stack_idx;
      locals ← store locals n x;
      Ok (Continue (State (size_t (pc + 2)) operand_stack stack_idx locals heap out))
  | Some (i_istore_0 | i_istore_1 | i_istore_2 | i_istore_3) =>
      let stack_idx := stack_idx - 1 in
      x ← load operand_stack stack_idx;
      locals ← store locals (int32_t byte - opcode i_istore_0) x;
      Ok (Continue (State (size_t (pc + 1)) operand_stack stack_idx locals heap out))
  | Some (i_astore_0 | i_astore_1 | i_astore_2 | i_astore_3) =>
      let stack_idx := stack_idx - 1 in
      x ← load operand_stack stack_idx;
      locals ← store locals (int32_t byte - opcode i_astore_0) x;
      Ok (Continue (State (size_t (pc + 1)) operand_stack stack_idx locals heap out))
  | Some i_iastore =>
      ref ← load operand_stack (stack_idx - 3);
      index ← load operand_stack (stack_idx - 2);
      x ← load operand_stack (stack_idx - 1);
      heap ← heap_set heap ref (int32_t (index + 1)) x;
      Ok (Continue (State (size_t (pc + 1)) operand_stack (stack_idx - 3) locals heap out))
  | Some i_dup =>
      x ← load operand_stack (stack_idx - 1);
      operand_stack ← store operand_stack stack_idx x;
      Ok (Continue (State (size_t (pc + 1)) operand_stack (stack_idx + 1) locals heap out))
  | Some i_iadd =>
      let stack_idx := stack_idx - 1 in
      x ← load operand_stack stack_idx;
      y ← load operand_stack (stack_idx - 1);
      let sum := int32_t (x + y) in
      operand_stack ← store operand_stack (stack_idx - 1) sum;
      Ok (Continue (State (size_t (pc + 1)) operand_stack stack_idx locals heap out))
  | Some i_isub =>
      let stack_idx := stack_idx - 1 in
      x ← load operand_stack (stack_idx - 1);
      y ← load operand_stack stack_idx;
      operand_stack ← store operand_stack (stack_idx - 1) (int32_t (x - y));
      Ok (Continue (State (size_t (pc + 1)) operand_stack stack_idx locals heap out))
  | Some i_imul =>
      let stack_idx := stack_idx - 1 in
      x ← load operand_stack (stack_idx - 1);
      y ← load operand_stack stack_idx;
      operand_stack ← store operand_stack (stack_idx - 1) (int32_t (x * y));
      Ok (Continue (State (size_t (pc + 1)) operand_stack stack_idx locals heap out))
  | Some i_idiv =>
      b ← load operand_stack (stack_idx - 1);
      assert (negb (b =? 0)) "operand_stack[stack_idx - 1] != 0";;
      let stack_idx := stack_idx - 1 in
      x ← load operand_stack (stack_idx - 1);
      y ← load operand_stack stack_idx;
      q ← c_div x y;
      operand_stack ← store operand_stack (stack_idx - 1) q;
      Ok (Continue (State (size_t (pc + 1)) operand_stack stack_idx locals heap out))
  | Some i_irem =>
      b ← load operand_stack (stack_idx - 1);
      assert (negb (b =? 0)) "operand_stack[stack_idx - 1] != 0";;
      let stack_idx := stack_idx - 1 in
      x ← load operand_stack (stack_idx - 1);
      y ← load operand_stack stack_idx;
      r ← c_rem x y;
      operand_stack ← store operand_stack (stack_idx - 1) r;
      Ok (Continue (State (size_t (pc + 1)) operand_stack stack_idx locals heap out))
  | Some i_ineg =>
      x ← load operand_stack (stack_idx - 1);
      operand_stack ← store operand_stack (stack_idx - 1) (int32_t (- x));
      Ok (Continue (State (size_t (pc + 1)) operand_stack stack_idx locals heap out))
  | Some i_ishl =>
      let stack_idx := stack_idx - 1 in
      x ← load operand_stack (stack_idx - 1);
      y ← load operand_stack stack_idx;
      r ← c_shl x y;
      operand_stack ← store operand_stack (stack_idx - 1) r;
      Ok (Continue (State (size_t (pc + 1)) operand_stack stack_idx locals heap out))
  | Some i_ishr =>
      let stack_idx := stack_idx - 1 in
      x ← load operand_stack (stack_idx - 1);
      y ← load operand_stack stack_idx;
      r ← c_shr x y;
      operand_stack ← store operand_stack (stack_idx - 1) r;
      Ok (Continue (State (size_t (pc + 1)) operand_stack stack_idx locals heap out))
  | Some i_iushr =>
      let stack_idx := stack_idx - 1 in
      x ← load operand_stack (stack_idx - 1);
      y ← load operand_stack stack_idx;
      r ← c_shru (uint32_t x) y;
      operand_stack ← store operand_stack (stack_idx - 1) (int32_t r);
      Ok (Continue (State (size_t (pc + 1)) operand_stack stack_idx locals heap out))
  | Some i_iand =>
      let stack_idx := stack_idx - 1 in
      x ← load operand_stack (stack_idx - 1);
      y ← load operand_stack stack_idx;
      operand_stack ← store operand_stack (stack_idx - 1) (Z.land x y);
      Ok (Continue (State (size_t (pc + 1)) operand_stack stack_idx locals heap out))
  | Some i_ior =>
      let stack_idx := stack_idx - 1 in
      x ← load operand_stack (stack_idx - 1);
      y ← load operand_stack stack_idx;
      operand_stack ← store operand_stack (stack_idx - 1) (Z.lor x y);
      Ok (Continue (State (size_t (pc + 1)) operand_stack stack_idx locals heap out))
  | Some i_ixor =>
      let stack_idx := stack_idx - 1 in
      x ← load operand_stack (stack_idx - 1);
      y ← load operand_stack stack_idx;
      operand_stack ← store operand_stack (stack_idx - 1) (Z.lxor x y);
      Ok (Continue (State (size_t (pc + 1)) operand_stack stack_idx locals heap out))
  | Some i_iinc =>
      n ← fetch method (pc + 1);
      c ← fetch method (pc + 2);
      x ← load locals n;
      locals ← store locals n (int32_t (x + int8_t c));
      Ok (Continue (State (size_t (pc + 3)) operand_stack stack_idx locals heap out))
  | Some i_ifeq =>
      x ← load operand_stack (stack_idx - 1);
      pc ← branch method pc (x =? 0);
      Ok (Continue (State pc operand_stack (stack_idx - 1) locals heap out))
  | Some i_ifne =>
      x ← load operand_stack (stack_idx - 1);
      pc ← branch method pc (negb (x =? 0));
      Ok (Continue (State pc operand_stack (stack_idx - 1) locals heap out))
  | Some i_iflt =>
      x ← load operand_stack (stack_idx - 1);
      pc ← branch method pc (x <? 0);
      Ok (Continue (State pc operand_stack (stack_idx - 1) locals heap out))
  | Some i_ifge =>
      x ← load operand_stack (stack_idx - 1);
      pc ← branch method pc (x >=? 0);
      Ok (Continue (State pc operand_stack (stack_idx - 1) locals heap out))
  | Some i_ifgt =>
      x ← load operand_stack (stack_idx - 1);
      pc ← branch method pc (x >? 0);
      Ok (Continue (State pc operand_stack (stack_idx - 1) locals heap out))
  | Some i_ifle =>
      x ← load operand_stack (stack_idx - 1);
      pc ← branch method pc (x <=? 0);
      Ok (Continue (State pc operand_stack (stack_idx - 1) locals heap out))
  | Some i_if_icmpeq =>
      x ← load operand_stack (stack_idx - 2);
      y ← load operand_stack (stack_idx - 1);
      pc ← branch method pc (x =? y);
      Ok (Continue (State pc operand_stack (stack_idx - 2) locals heap out))
  | Some i_if_icmpne =>
      x ← load operand_stack (stack_idx - 2);
      y ← load operand_stack (stack_idx - 1);
      pc ← branch method pc (negb (x =? y));
      Ok (Continue (State pc operand_stack (stack_idx - 2) locals heap out))
  | Some i_if_icmplt =>
      x ← load operand_stack (stack_idx - 2);
      y ← load operand_stack (stack_idx - 1);
      pc ← branch method pc (x <? y);
      Ok (Continue (State pc operand_stack (stack_idx - 2) locals heap out))
  | Some i_if_icmpge =>
      x ← load operand_stack (stack_idx - 2);
      y ← load operand_stack (stack_idx - 1);
      pc ← branch method pc (x >=? y);
      Ok (Continue (State pc operand_stack (stack_idx - 2) locals heap out))
  | Some i_if_icmpgt =>
      x ← load operand_stack (stack_idx - 2);
      y ← load operand_stack (stack_idx - 1);
      pc ← branch method pc (x >? y);
      Ok (Continue (State pc operand_stack (stack_idx - 2) locals heap out))
  | Some i_if_icmple =>
      x ← load operand_stack (stack_idx - 2);
      y ← load operand_stack (stack_idx - 1);
      pc ← branch method pc (x <=? y);
      Ok (Continue (State pc operand_stack (stack_idx - 2) locals heap out))
  | Some i_goto =>
      offset ← operand16 method pc;
      Ok (Continue (State (size_t (pc + offset)) operand_stack stack_idx locals heap out))
  | Some (i_ireturn | i_areturn) =>
      let stack_idx := stack_idx - 1 in
      x ← load operand_stack stack_idx;
      Ok (Return {| has_value := true; value := x |} heap out)
  | Some i_return =>
      Ok (Return {| has_value := false; value := 0 |} heap out)
  | Some i_getstatic =>
      Ok (Continue (State (size_t (pc + 3)) operand_stack stack_idx locals heap out))
  | Some i_invokevirtual =>
      let stack_idx := stack_idx - 1 in
      x ← load operand_stack stack_idx;
      Ok (Continue (State (size_t (pc + 3)) operand_stack stack_idx locals heap (out ++ [x])))
  | Some i_invokestatic =>
      index ← operand16 method pc;
      match find_method_from_index index class with
      | None => Fault UndefinedBehaviour
      | Some callee_method =>
          let num_params := int16_t (get_number_of_parameters callee_method) in
          let callee_locals := calloc 4 (max_locals (code_attribute callee_method)) in
          '(stack_idx, callee_locals) ←
            pop_params (Z.to_nat num_params) operand_stack stack_idx callee_locals;
          '(ret, heap, out) ← execute callee_method callee_locals heap out;
          if has_value ret then
            operand_stack ← store operand_stack stack_idx (value ret);
            Ok (Continue (State (size_t (pc + 3)) operand_stack (stack_idx + 1) locals heap out))
          else
            Ok (Continue (State (size_t (pc + 3)) operand_stack stack_idx locals heap out))
      end
  | Some i_newarray =>
      n ← load operand_stack (stack_idx - 1);
      let array := calloc 4 (int32_t (n + 1)) in
      array ← store array 0 n;
      array ← clear_from (Z.to_nat n) array 1;
      let '(heap, ref) := heap_add heap array in
      operand_stack ← store operand_stack (stack_idx - 1) ref;
      Ok (Continue (State (size_t (pc + 2)) operand_stack stack_idx locals heap out))
  | Some i_arraylength =>
      ref ← load operand_stack (stack_idx - 1);
      array ← heap_get heap ref;
      len ← load array 0;
      operand_stack ← store operand_stack (stack_idx - 1) len;
      Ok (Continue (State (size_t (pc + 1)) operand_stack stack_idx locals heap out))
  end.

(** The variables of [execute] before its loop: [pc = 0], a zeroed
    [operand_stack] of [max_stack] elements, [stack_idx = 0]. *)
Definition entry (method : method_t) (locals : list Z) (heap : heap_t)
    (out : list Z) : state :=
  State 0 (calloc (max_stack (code_attribute method)) 4) 0 locals heap out.

(** The loop of [execute], from the state [s]. Leaving the loop because
    [pc] reached [code_length] returns void. *)
Fixpoint run (fuel : nat) (method : method_t) (class : class_file_t)
    (s : state) : result returned :=
  match fuel with
  | O => Fault OutOfFuel
  | S fuel =>
      if pc s <? code_length (code_attribute method) then
        let execute callee callee_locals heap out :=
          run fuel callee class (entry callee callee_locals heap out) in
        r ← step execute method class s;
        match r with
        | Continue s => run fuel method class s
        | Return result heap out => Ok (result, heap, out)
        end
      else Ok ({| has_value := false; value := 0 |}, heap s, stdout s)
  end.

(** [execute(method, locals, class, heap)] *)
Definition execute (fuel : nat) (class : class_file_t) : execute_t :=
  λ method locals heap out, run fuel method class (entry method locals heap out).

(** ** The driver *)

(** The name of the method to invoke to run the class file *)
Definition MAIN_METHOD : string := "main".
(** The descriptor string for main() *)
Definition MAIN_DESCRIPTOR : string := "([Ljava/lang/String;)V".

(** [main(argc, argv)]: [class_file] is what [fopen] and [get_class] make
    of [argv[1]], [None] when the file cannot be opened, and [error] is
    what [fclose] returns for it. The result is the exit status and the
    lines printed. *)
Definition main (fuel : nat) (argc : Z) (class_file : option class_file_t)
    (error : Z) : result (Z * list Z) :=
  if negb (argc =? 2) then Ok (1, [])
  else
    match class_file with
    | None => Fault (AssertionFailure "Failed to open file")
    | Some class =>
        assert (error =? 0) "Failed to close file";;
        let heap := heap_init in
        match find_method MAIN_METHOD MAIN_DESCRIPTOR class with
        | None => Fault (AssertionFailure "Missing main() method")
        | Some main_method =>
            let locals :=
              replicate (Z.to_nat (max_locals (code_attribute main_method))) 0 in
            '(result, heap, out) ← execute fuel class main_method locals heap [];
            assert (negb (has_value result)) "main() should return void";;
            Ok (0, out)
        end
    end.

End Execute.

(** ** A class view *)

(** Modelled from the spec: [find_method] of [read_class.h], "linear
    scan" of the method table for a name and a descriptor. *)
Definition scan_method (name' descriptor' : string) (class : class_file_t)
    : option method_t :=
  List.find (λ m, String.eqb (name m) name' && String.eqb (descriptor m) descriptor')
            (methods class).

(** Modelled from the spec: [find_method_from_index] of [read_class.h],
    which "resolves a method-reference constant-pool entry at index [i] to
    the corresponding method in this class"; the pool is numbered from 1
    and held 0-based. *)
Definition resolve_method (index : Z) (class : class_file_t) : option method_t :=
  if 1 <=? index then
    match constant_pool class !! Z.to_nat (index - 1) with
    | Some (CONSTANT_Methodref_info name' descriptor') =>
        scan_method name' descriptor' class
    | _ => None
    end
  else None.

(** Modelled from the spec: [get_number_of_parameters] of [read_class.h],
    which "parses the method descriptor and returns its arity (each
    top-level [I] counts one; array types count as one)". [in_class] is
    set between the [L] and the [;] of a class name. *)
Fixpoint count_parameters (descriptor : string) (in_class : bool) : Z :=
  match descriptor with
  | EmptyString => 0
  | String c rest =>
      if in_class then count_parameters rest (negb (Ascii.eqb c ";"%char))
      else if Ascii.eqb c ")"%char then 0
      else if Ascii.eqb c "("%char || Ascii.eqb c "["%char then count_parameters rest false
      else 1 + count_parameters rest (Ascii.eqb c "L"%char)
  end.

Definition class_view : ClassView := {|
  find_method := scan_method;
  find_method_from_index := resolve_method;
  get_number_of_parameters := λ m, count_parameters (descriptor m) false;
|}.

(** ** Notions the statements below use *)

(** [r] is the [int32_t] that the exact result [x] wraps to: [x mod 2^32]
    read as a signed 32-bit integer. *)
Definition wraps_to (x r : Z) : Prop :=
  INT32_MIN ≤ r ≤ INT32_MAX ∧ r mod 2 ^ 32 = x mod 2 ^ 32.

(** The branch offset of the class-file format: the two bytes after the
    opcode, both unsigned, composed big-endian and sign-extended from 16
    bits. *)
Definition branch_offset (b1 b2 : Z) : Z :=
  int16_t (Z.lor (Z.shiftl b1 8) (Z.land b2 0xFF)).

(** The offset [(b1 << 8) | b2] that [execute] adds to [pc], for the
    bytes [b1] and [b2] after the opcode. *)
Definition decoded_offset (b1 b2 : Z) : Z :=
  Z.lor (Z.shiftl (int16_t b1) 8) (int8_t b2).

(** Whether the offset that [execute] decodes is the branch offset of
    the class-file format. *)
Definition offsets_agree (b1 b2 : Z) : bool :=
  decoded_offset b1 b2 =? branch_offset b1 b2.

(** The branch opcodes: how many operands each pops, and whether it
    branches when [x] is second from the top and [y] on top of the
    operand stack ([None] for the other opcodes). *)
Definition branch_pops (i : jvm_instruction_t) : Z :=
  match i with
  | i_ifeq | i_ifne | i_iflt | i_ifge | i_ifgt | i_ifle => 1
  | i_if_icmpeq | i_if_icmpne | i_if_icmplt | i_if_icmpge | i_if_icmpgt
  | i_if_icmple => 2
  | _ => 0
  end.

Definition branch_condition (i : jvm_instruction_t) (x y : Z) : option bool :=
  match i with
  | i_goto => Some true
  | i_ifeq => Some (y =? 0)
  | i_ifne => Some (negb (y =? 0))
  | i_iflt => Some (y <? 0)
  | i_ifge => Some (y >=? 0)
  | i_ifgt => Some (y >? 0)
  | i_ifle => Some (y <=? 0)
  | i_if_icmpeq => Some (x =? y)
  | i_if_icmpne => Some (negb (x =? y))
  | i_if_icmplt => Some (x <? y)
  | i_if_icmpge => Some (x >=? y)
  | i_if_icmpgt => Some (x >? y)
  | i_if_icmple => Some (x <=? y)
  | _ => None
  end.

(** The slot [heap_get(heap, ref)[i]]. *)
Definition heap_slot (heap : heap_t) (ref i : Z) : result Z :=
  array ← heap_get heap ref;
  load array i.

(** [ref] names an array object of length [n]: a buffer of [n + 1]
    slots whose slot 0 holds the [int32_t] [n]. *)
Definition array_object (heap : heap_t) (ref n : Z) : Prop :=
  ∃ elements, heap_get heap ref = Ok (n :: elements)
              ∧ Z.of_nat (length elements) = n
              ∧ n ≤ INT32_MAX.

(** [x] written over the slot [i] of the operand stack. *)
Definition poke (operand_stack : list Z) (i x : Z) : list Z :=
  <[Z.to_nat i := x]> operand_stack.

(** The state [s] with its [pc] and operand stack replaced. *)
Definition after (s : state) (pc' : Z) (operand_stack' : list Z)
    (stack_idx' : Z) : state :=
  State pc' operand_stack' stack_idx' (locals s) (heap s) (stdout s).

(** The state [s] with its [pc], operand stack and heap replaced. *)
Definition after_heap (s : state) (pc' : Z) (operand_stack' : list Z)
    (stack_idx' : Z) (heap' : heap_t) : state :=
  State pc' operand_stack' stack_idx' (locals s) heap' (stdout s).

(** The state after a binary operation: both operands popped, [r]
    pushed, [pc] on the next opcode. *)
Definition binary_result (s : state) (r : Z) : state :=
  after s (size_t (pc s + 1)) (poke (operand_stack s) (stack_idx s - 2) r)
        (stack_idx s - 1).

(** The state after a unary operation: the top of the stack replaced by
    [r], [pc] on the next opcode. *)
Definition unary_result (s : state) (r : Z) : state :=
  after s (size_t (pc s + 1)) (poke (operand_stack s) (stack_idx s - 1) r)
        (stack_idx s).

(** The state after [invokestatic] when the callee, which takes [k]
    parameters, has returned [ret] and left the heap [heap'] and the
    output [out']. *)
Definition after_call (s : state) (k : Z) (ret : optional_value_t)
    (heap' : heap_t) (out' : list Z) : state :=
  State (size_t (pc s + 3))
        (if has_value ret
         then poke (operand_stack s) (stack_idx s - k) (value ret)
         else operand_stack s)
        (stack_idx s - k + (if has_value ret then 1 else 0))
        (locals s) heap' out'.

(** An interpreter [execute2] extends [execute1] when it yields every
    result of [execute1] other than a bound that ran out. *)
Definition extends (execute1 execute2 : execute_t) : Prop :=
  ∀ method locals heap out r,
    execute1 method locals heap out = r → r ≠ Fault OutOfFuel →
    execute2 method locals heap out = r.

(** ** Sample methods, classes and states *)

(** A method with the given code and room for [stack] operands and
    [nlocals] locals. *)
Definition method_of (name' descriptor' : string) (stack nlocals : Z)
    (bytes : list Z) : method_t :=
  {| name := name'; descriptor := descriptor';
     code_attribute := {| max_stack := stack; max_locals := nlocals;
                          code_length := Z.of_nat (length bytes);
                          code := bytes |} |}.

(** A static method without parameters that runs [bytes]. *)
Definition snippet (bytes : list Z) : method_t :=
  method_of "snippet" "()V" 4 4 bytes.

(** A class without constants and methods. *)
Definition no_class : class_file_t := {| constant_pool := []; methods := [] |}.

(** The state of a method at [pc = 0] with [operands] on its operand
    stack, which has room for four, and the given heap. *)
Definition with_heap (heap : heap_t) (operands : list Z) : state :=
  State 0 (operands ++ replicate (4 - length operands)%nat 0)
        (Z.of_nat (length operands)) (replicate 4 0) heap [].

(** The same with an empty heap. *)
Definition with_operands (operands : list Z) : state :=
  with_heap heap_init operands.

(** An interpreter that is never called. *)
Definition no_calls : execute_t := λ _ _ _ _, Fault UndefinedBehaviour.

(** A method that jumps forward by 128 bytes, over [nop]s, to code that
    prints 1: [goto +128; nop ...; iconst_1; invokevirtual; return]. *)
Definition jump_128 : method_t :=
  method_of "jump" "()V" 4 4
    ([0xa7; 0x00; 0x80] ++ replicate 125 0x00 ++ [0x04; 0xb6; 0x00; 0x00; 0xb1]).

(** A class with the static method [sub(II)I], which returns its first
    parameter minus its second: [iload_0; iload_1; isub; ireturn]. *)
Definition sub_method : method_t :=
  method_of "sub" "(II)I" 2 2 [0x1a; 0x1b; 0x64; 0xac].

Definition sub_class : class_file_t :=
  {| constant_pool := [CONSTANT_Methodref_info "sub" "(II)I"];
     methods := [sub_method] |}.

(** The same class with 127 other constants before the reference to
    [sub], which is the constant 128 (0x0080). *)
Definition far_class : class_file_t :=
  {| constant_pool := replicate 127 CONSTANT_other
                      ++ [CONSTANT_Methodref_info "sub" "(II)I"];
     methods := [sub_method] |}.

(** A class whose [main] returns an int: [iconst_0; ireturn]. *)
Definition main_returns_int : class_file_t :=
  {| constant_pool := [];
     methods := [method_of MAIN_METHOD MAIN_DESCRIPTOR 1 1 [0x03; 0xac]] |}.

(** A class whose [main] runs [bytes]; the end-to-end scenarios of the
    specification follow. *)
Definition class_of_main (constants : list cp_info) (others : list method_t)
    (stack nlocals : Z) (bytes : list Z) : class_file_t :=
  {| constant_pool := constants;
     methods := method_of MAIN_METHOD MAIN_DESCRIPTOR stack nlocals bytes :: others |}.

(** [iconst_3; iconst_4; iadd; invokevirtual println; return] *)
Definition scenario_1 : class_file_t :=
  class_of_main [] [] 2 1 [0x06; 0x07; 0x60; 0xb6; 0x00; 0x00; 0xb1].

(** A loop from 1 to 5 that sums into local 1, then prints:
    [iconst_0; istore_1; iconst_1; istore_2;
     4: iload_2; iconst_5; if_icmpgt 19; iload_1; iload_2; iadd; istore_1;
     iinc 2 1; goto 4; 19: iload_1; invokevirtual println; return] *)
Definition scenario_2 : class_file_t :=
  class_of_main [] [] 2 3
    [0x03; 0x3c; 0x04; 0x3d; 0x1c; 0x08; 0xa3; 0x00; 0x0d; 0x1b; 0x1c; 0x60;
     0x3c; 0x84; 0x02; 0x01; 0xa7; 0xff; 0xf4; 0x1b; 0xb6; 0x00; 0x00; 0xb1].

(** [bipush 10; newarray int; dup; iconst_0; bipush 42; iastore; iconst_0;
     iaload; invokevirtual println; return] *)
Definition scenario_3 : class_file_t :=
  class_of_main [] [] 4 1
    [0x10; 0x0a; 0xbc; 0x0a; 0x59; 0x03; 0x10; 0x2a; 0x4f; 0x03; 0x2e;
     0xb6; 0x00; 0x00; 0xb1].

(** [bipush 7; bipush 3; idiv; println; bipush 7; bipush 3; irem; println] *)
Definition scenario_4 : class_file_t :=
  class_of_main [] [] 2 1
    [0x10; 0x07; 0x10; 0x03; 0x6c; 0xb6; 0x00; 0x00;
     0x10; 0x07; 0x10; 0x03; 0x70; 0xb6; 0x00; 0x00; 0xb1].

(** The recursive factorial [fact(I)I]:
    [iload_0; ifne 6; iconst_1; ireturn;
     6: iload_0; iload_0; iconst_1; isub; invokestatic fact; imul; ireturn],
    and a [main] that prints [fact(6)]. *)
Definition fact_method : method_t :=
  method_of "fact" "(I)I" 3 1
    [0x1a; 0x9a; 0x00; 0x05; 0x04; 0xac; 0x1a; 0x1a; 0x04; 0x64;
     0xb8; 0x00; 0x01; 0x68; 0xac].

Definition scenario_5 : class_file_t :=
  class_of_main [CONSTANT_Methodref_info "fact" "(I)I"] [fact_method] 1 1
    [0x10; 0x06; 0xb8; 0x00; 0x01; 0xb6; 0x00; 0x00; 0xb1].

(** [iconst_m1; iconst_1; iushr; invokevirtual println; return] *)
Definition scenario_6 : class_file_t :=
  class_of_main [] [] 2 1 [0x02; 0x04; 0x7c; 0xb6; 0x00; 0x00; 0xb1].

(** An array of length 3 whose length slot is overwritten through the
    index -1, and whose length is then printed:
    [iconst_3; newarray int; dup; dup; iconst_m1; bipush 42; iastore;
     arraylength; invokevirtual println; return] *)
Definition length_overwritten : class_file_t :=
  class_of_main [] [] 5 1
    [0x06; 0xbc; 0x0a; 0x59; 0x59; 0x02; 0x10; 0x2a; 0x4f; 0xbe;
     0xb6; 0x00; 0x00; 0xb1].

(** ** Further notions *)

(** The state after a push: [r] written at [stack_idx], which moves up,
    and [pc] moved by the [n] bytes of the instruction. *)
Definition push_result (s : state) (r : Z) (n : Z) : state :=
  after s (size_t (pc s + n)) (poke (operand_stack s) (stack_idx s) r)
        (stack_idx s + 1).

(** The unsigned [w]-bit value [u] read as a signed one. *)
Definition sign_extend (w : Z) (u : Z) : Z :=
  if u <? 2 ^ (w - 1) then u else u - 2 ^ w.

(** [x] is a value of [int32_t]. *)
Definition is_int32 (x : Z) : Prop := INT32_MIN ≤ x ≤ INT32_MAX.

(** The faults of [m], if it faults, all satisfy [P]. *)
Definition faults_in {A : Type} (P : fault → Prop) (m : result A) : Prop :=
  ∀ f, m = Fault f → P f.

(** The text of the assertion of [idiv] and [irem]. *)
Definition divisor_assertion : string := "operand_stack[stack_idx - 1] != 0".

(** Every reference of [heap] is one of [heap'], to a buffer of the same
    size. *)
Definition heap_grows (heap heap' : heap_t) : Prop :=
  ∀ ref array, heap_get heap ref = Ok array →
    ∃ array', heap_get heap' ref = Ok array' ∧ length array' = length array.

(** From the heap [heap] and the output [out] to [heap'] and [out']:
    references are kept and lines are only added. *)
Definition grows (heap : heap_t) (out : list Z) (heap' : heap_t)
    (out' : list Z) : Prop :=
  heap_grows heap heap' ∧ out `prefix_of` out'.

(** The index into the constant pool that the operand bytes [b1] and
    [b2] of [invokestatic] name in the class-file format:
    [(indexbyte1 << 8) | indexbyte2], both bytes unsigned. *)
Definition constant_index (b1 b2 : Z) : Z := Z.lor (Z.shiftl b1 8) b2.

(** The loop of [execute] after [n] turns from the state [s], none of
    which returned: the state the next turn starts from, and [None] when
    the loop ended or faulted before. *)
Fixpoint turns `{CV : ClassView} (execute : execute_t) (method : method_t)
    (class : class_file_t) (n : nat) (s : state) : option state :=
  match n with
  | O => Some s
  | S n =>
      if pc s <? code_length (code_attribute method) then
        match step execute method class s with
        | Ok (Continue s) => turns execute method class n s
        | _ => None
        end
      else None
  end.

(** The call of [execute] that [main] makes: the method [main_method]
    of [class] on zeroed locals, an empty heap and no output yet. *)
Definition main_call `{CV : ClassView} (fuel : nat) (class : class_file_t)
    (main_method : method_t) : result returned :=
  execute fuel class main_method
    (replicate (Z.to_nat (max_locals (code_attribute main_method))) 0)
    heap_init [].

(** The opcodes whose case writes [operand_stack[stack_idx]], and those
    whose case reads [operand_stack[stack_idx - 1]]. *)
Definition pushes (i : jvm_instruction_t) : bool :=
  match i with
  | i_iconst_m1 | i_iconst_0 | i_iconst_1 | i_iconst_2 | i_iconst_3
  | i_iconst_4 | i_iconst_5 | i_bipush | i_sipush | i_ldc
  | i_iload | i_aload | i_iload_0 | i_iload_1 | i_iload_2 | i_iload_3
  | i_aload_0 | i_aload_1 | i_aload_2 | i_aload_3 | i_dup => true
  | _ => false
  end.

Definition pops (i : jvm_instruction_t) : bool :=
  match i with
  | i_nop | i_iconst_m1 | i_iconst_0 | i_iconst_1 | i_iconst_2 | i_iconst_3
  | i_iconst_4 | i_iconst_5 | i_bipush | i_sipush | i_ldc
  | i_iload | i_aload | i_iload_0 | i_iload_1 | i_iload_2 | i_iload_3
  | i_aload_0 | i_aload_1 | i_aload_2 | i_aload_3
  | i_iinc | i_goto | i_return | i_getstatic | i_invokestatic => false
  | _ => true
  end.

(** The opcodes whose operand byte is the index of a local. *)
Definition indexes_local (i : jvm_instruction_t) : bool :=
  match i with
  | i_iload | i_aload | i_istore | i_astore | i_iinc => true
  | _ => false
  end.

(** The opcodes whose case assigns to [locals], to the heap (through
    [heap_get] or [heap_add]) and to the output, the case
    [i_invokestatic] through the method it calls. *)
Definition writes_locals (i : jvm_instruction_t) : bool :=
  match i with
  | i_istore | i_astore | i_istore_0 | i_istore_1 | i_istore_2 | i_istore_3
  | i_astore_0 | i_astore_1 | i_astore_2 | i_astore_3 | i_iinc => true
  | _ => false
  end.

Definition writes_heap (i : jvm_instruction_t) : bool :=
  match i with
  | i_iastore | i_newarray | i_invokestatic => true
  | _ => false
  end.

Definition writes_output (i : jvm_instruction_t) : bool :=
  match i with
  | i_invokevirtual | i_invokestatic => true
  | _ => false
  end.

Arguments decode : simpl never.
Arguments opcode : simpl never.
Arguments signed : simpl never.
Arguments unsigned : simpl never.
Arguments int8_t : simpl never.
Arguments int16_t : simpl never.
Arguments int32_t : simpl never.
Arguments uint8_t : simpl never.
Arguments uint32_t : simpl never.
Arguments size_t : simpl never.
Arguments load : simpl never.
Arguments store : simpl never.
Arguments calloc : simpl never.

(** * Properties *)

(** ** Machine integers *)

Section Integers.

Lemma pow2_double w : 0 < w → 2 ^ w = 2 * 2 ^ (w - 1).
Proof. intros Hw. rewrite <- Z.pow_succ_r by lia. f_equal. lia. Qed.

Lemma signed_range w x : 0 < w → - 2 ^ (w - 1) ≤ signed w x < 2 ^ (w - 1).
Proof.
  intros Hw. unfold signed. rewrite (pow2_double w) by done.
  assert (0 < 2 ^ (w - 1)) by (apply Z.pow_pos_nonneg; lia).
  pose proof (Z.mod_pos_bound (x + 2 ^ (w - 1)) (2 * 2 ^ (w - 1))). lia.
Qed.

Lemma signed_eqm w x : 0 < w → signed w x mod 2 ^ w = x mod 2 ^ w.
Proof.
  intros Hw. unfold signed.
  rewrite Zminus_mod_idemp_l. f_equal. lia.
Qed.

Lemma signed_id w x : 0 < w → - 2 ^ (w - 1) ≤ x < 2 ^ (w - 1) → signed w x = x.
Proof.
  intros Hw Hx. unfold signed. rewrite (pow2_double w) by done.
  rewrite Z.mod_small; lia.
Qed.

Lemma int32_t_wraps x : wraps_to x (int32_t x).
Proof.
  split.
  - pose proof (signed_range 32 x). unfold int32_t, INT32_MIN, INT32_MAX.
    change (2 ^ (32 - 1)) with (2 ^ 31) in *. lia.
  - apply (signed_eqm 32). lia.
Qed.

(** [wraps_to] determines its result. *)
Lemma wraps_to_unique x r r' : wraps_to x r → wraps_to x r' → r = r'.
Proof.
  unfold wraps_to, INT32_MIN, INT32_MAX. intros [Hr Hx] [Hr' Hx'].
  rewrite <- Hx' in Hx.
  rewrite (Z.mod_eq r), (Z.mod_eq r') in Hx by lia. lia.
Qed.

Lemma int32_t_id x : INT32_MIN ≤ x ≤ INT32_MAX → int32_t x = x.
Proof.
  unfold INT32_MIN, INT32_MAX. intros Hx. apply (signed_id 32); [lia|].
  change (2 ^ (32 - 1)) with (2 ^ 31). lia.
Qed.

Lemma size_t_id x : 0 ≤ x < 2 ^ 64 → size_t x = x.
Proof. apply Z.mod_small. Qed.

Lemma uint8_t_id x : 0 ≤ x < 256 → uint8_t x = x.
Proof. apply Z.mod_small. Qed.

End Integers.

(** ** Arrays *)

Section Arrays.
Context {A : Type}.
Implicit Types a : list A.

Lemma load_Ok a i x : load a i = Ok x ↔ 0 ≤ i ∧ a !! Z.to_nat i = Some x.
Proof.
  unfold load. destruct (Z.leb_spec 0 i) as [Hi|Hi].
  - destruct (a !! Z.to_nat i) as [y|]; split.
    + intros [= ->]. done.
    + intros [_ [= ->]]. done.
    + done.
    + intros [_ [=]].
  - split; [done | lia].
Qed.

Lemma load_length a i x : load a i = Ok x → 0 ≤ i < Z.of_nat (length a).
Proof. intros [? Hl]%load_Ok. apply lookup_lt_Some in Hl. lia. Qed.

Lemma load_in_range a i : 0 ≤ i < Z.of_nat (length a) → ∃ x, load a i = Ok x.
Proof.
  intros Hi. destruct (lookup_lt_is_Some_2 a (Z.to_nat i)) as [x Hx]; [lia|].
  exists x. apply load_Ok. split; [lia | done].
Qed.

Lemma store_Ok a i x :
  0 ≤ i < Z.of_nat (length a) → store a i x = Ok (<[Z.to_nat i := x]> a).
Proof.
  intros Hi. unfold store.
  destruct (Z.leb_spec 0 i), (Z.ltb_spec i (Z.of_nat (length a))); simpl; try lia.
  done.
Qed.

Lemma store_out_of_range a i x :
  ¬ (0 ≤ i < Z.of_nat (length a)) → store a i x = Fault UndefinedBehaviour.
Proof.
  intros Hi. unfold store.
  destruct (Z.leb_spec 0 i), (Z.ltb_spec i (Z.of_nat (length a))); simpl; try lia; done.
Qed.

(** An access fails in one way only. *)
Lemma load_Fault a i f : load a i = Fault f → f = UndefinedBehaviour.
Proof.
  unfold load. destruct (0 <=? i); [destruct (a !! Z.to_nat i)|]; congruence.
Qed.

Lemma store_Fault a i x f : store a i x = Fault f → f = UndefinedBehaviour.
Proof. unfold store. destruct ((0 <=? i) && _); congruence. Qed.

Lemma load_insert a i x y : load a i = Ok y → load (<[Z.to_nat i := x]> a) i = Ok x.
Proof.
  intros Hl. pose proof (load_length _ _ _ Hl).
  apply load_Ok. split; [lia|]. apply list_lookup_insert_eq. lia.
Qed.

Lemma load_insert_ne a i j x :
  0 ≤ i → i ≠ j → load (<[Z.to_nat i := x]> a) j = load a j.
Proof.
  intros Hi Hne. unfold load. destruct (Z.leb_spec 0 j); [|done].
  rewrite list_lookup_insert_ne by lia. done.
Qed.

End Arrays.

(** ** Opcodes *)

Lemma decode_opcode i : decode (opcode i) = Some i.
Proof. destruct i; reflexivity. Qed.

Lemma decode_Some byte i : decode byte = Some i → opcode i = byte.
Proof.
  unfold decode. intros [_ Heq]%List.find_some. by apply Z.eqb_eq.
Qed.

(** A byte selects no case of the [switch] exactly when it is the value
    of no opcode of the subset. *)
Lemma decode_None byte : decode byte = None ↔ ∀ i, opcode i ≠ byte.
Proof.
  split.
  - intros Hnone i Hi. rewrite <- Hi, decode_opcode in Hnone. done.
  - intros Hall. destruct (decode byte) as [i|] eqn:Hd; [|done].
    apply decode_Some in Hd. by destruct (Hall i).
Qed.

(** A byte of the code is a [uint8_t]. *)
Lemma fetch_range method i b : fetch method i = Ok b → 0 ≤ b < 256.
Proof.
  unfold fetch. destruct (load _ i) as [x|]; [intros [= <-] | done].
  unfold uint8_t, unsigned. apply Z.mod_pos_bound. done.
Qed.

(** ** The cases of the interpreter *)

(** Opens the case of [step] that the fetched opcode selects. *)
Ltac open_case s Hfetch :=
  destruct s as [pc stk idx loc hp out];
  unfold after, poke; simpl in *;
  unfold step; rewrite Hfetch; simpl.

(** Rewrites the next operand read with the hypothesis [H] on it. *)
Ltac read_operand H :=
  match type of H with
  | load ?a ?i = Ok _ =>
      match goal with
      | |- context [load a ?j] => replace j with i by lia; rewrite H; simpl
      end
  end.

(** Performs a write to a slot which the hypothesis [H] shows to exist. *)
Ltac write_slot H :=
  match type of H with
  | load ?a ?i = Ok _ =>
      match goal with
      | |- context [store a ?j ?x] =>
          replace j with i by lia;
          rewrite (store_Ok a i x) by exact (load_length _ _ _ H); simpl
      end
  end.

Section Arithmetic.
Context `{CV : ClassView}.
Variables (execute : execute_t) (method : method_t) (class : class_file_t).
Variables (s : state) (a b : Z).
Hypothesis second : load (operand_stack s) (stack_idx s - 2) = Ok a.
Hypothesis top : load (operand_stack s) (stack_idx s - 1) = Ok b.

Lemma iadd_step :
  fetch method (pc s) = Ok (opcode i_iadd) →
  step execute method class s = Ok (Continue (binary_result s (int32_t (a + b)))).
Proof.
  intros Hf. unfold binary_result. revert second top. open_case s Hf.
  intros second top. read_operand top. read_operand second. write_slot second.
  by rewrite (Z.add_comm b a).
Qed.

Lemma isub_step :
  fetch method (pc s) = Ok (opcode i_isub) →
  step execute method class s = Ok (Continue (binary_result s (int32_t (a - b)))).
Proof.
  intros Hf. unfold binary_result. revert second top. open_case s Hf.
  intros second top. read_operand second. read_operand top. write_slot second.
  done.
Qed.

Lemma imul_step :
  fetch method (pc s) = Ok (opcode i_imul) →
  step execute method class s = Ok (Continue (binary_result s (int32_t (a * b)))).
Proof.
  intros Hf. unfold binary_result. revert second top. open_case s Hf.
  intros second top. read_operand second. read_operand top. write_slot second.
  done.
Qed.

Lemma ineg_step :
  fetch method (pc s) = Ok (opcode i_ineg) →
  step execute method class s = Ok (Continue (unary_result s (int32_t (- b)))).
Proof.
  clear second. intros Hf. unfold unary_result. revert top. open_case s Hf.
  intros top. read_operand top. write_slot top. done.
Qed.

End Arithmetic.

(** C6. [iadd], [isub], [imul] and [ineg] compute with two's-complement
    wrap-around: with [a] second from the top and [b] on top of the
    operand stack, [iadd] replaces both by [(a + b) mod 2^32] read as a
    signed 32-bit integer, [isub] by the wrapped [a - b], [imul] by the
    wrapped [a * b], and [ineg] replaces [b] by the wrapped [- b]; each
    moves [pc] to the next opcode and changes nothing else. *)
Theorem arithmetic_wraps_around `{CV : ClassView} execute method class s b :
  load (operand_stack s) (stack_idx s - 1) = Ok b →
  (fetch method (pc s) = Ok (opcode i_ineg) →
   ∃ r, wraps_to (- b) r
        ∧ step execute method class s = Ok (Continue (unary_result s r)))
  ∧ ∀ a, load (operand_stack s) (stack_idx s - 2) = Ok a →
    (fetch method (pc s) = Ok (opcode i_iadd) →
     ∃ r, wraps_to (a + b) r
          ∧ step execute method class s = Ok (Continue (binary_result s r)))
    ∧ (fetch method (pc s) = Ok (opcode i_isub) →
       ∃ r, wraps_to (a - b) r
            ∧ step execute method class s = Ok (Continue (binary_result s r)))
    ∧ (fetch method (pc s) = Ok (opcode i_imul) →
       ∃ r, wraps_to (a * b) r
            ∧ step execute method class s = Ok (Continue (binary_result s r))).
Proof.
  intros Hb. split; [|intros a Ha; repeat split];
    intros Hf; eexists; (split; [apply int32_t_wraps|]).
  - by apply ineg_step.
  - by apply iadd_step.
  - by apply isub_step.
  - by apply imul_step.
Qed.

(** [INT_MAX + 1] wraps to [INT_MIN]. *)
Lemma arithmetic_wraps_around_witness :
  ∃ r, wraps_to (INT32_MAX + 1) r
       ∧ step (CV := class_view) no_calls (snippet [0x60]) no_class
              (with_operands [INT32_MAX; 1])
         = Ok (Continue (binary_result (with_operands [INT32_MAX; 1]) r)).
Proof.
  exact (proj1 (proj2 (arithmetic_wraps_around (CV := class_view) no_calls
                         (snippet [0x60]) no_class
                         (with_operands [INT32_MAX; 1]) 1 eq_refl)
                      INT32_MAX eq_refl) eq_refl).
Defined.

Example iadd_INT_MAX_1 :
  step (CV := class_view) no_calls (snippet [0x60]) no_class
       (with_operands [INT32_MAX; 1])
  = Ok (Continue (State 1 [INT32_MIN; 1; 0; 0] 1 (replicate 4 0) heap_init [])).
Proof. reflexivity. Qed.

Section Shifts.
Context `{CV : ClassView}.
Variables (execute : execute_t) (method : method_t) (class : class_file_t).
Variables (s : state) (a b : Z).
Hypothesis second : load (operand_stack s) (stack_idx s - 2) = Ok a.
Hypothesis top : load (operand_stack s) (stack_idx s - 1) = Ok b.

Lemma count_in_range : 0 ≤ b < 32 → (0 <=? b) && (b <? 32) = true.
Proof. clear. intros Hb. apply andb_true_iff. split; [apply Z.leb_le | apply Z.ltb_lt]; lia. Qed.

Lemma count_out_of_range : ¬ (0 ≤ b < 32) → (0 <=? b) && (b <? 32) = false.
Proof.
  clear. intros Hb. apply andb_false_iff.
  destruct (Z.leb_spec 0 b); [right; apply Z.ltb_ge; lia | by left].
Qed.

(** A count in [0, 32) is its own low five bits. *)
Lemma count_masked : 0 ≤ b < 32 → Z.land b 31 = b.
Proof.
  clear. intros Hb. change 31 with (Z.ones 5).
  rewrite Z.land_ones by lia. apply Z.mod_small. change (2 ^ 5) with 32. lia.
Qed.

Lemma ishl_step :
  0 ≤ b < 32 →
  fetch method (pc s) = Ok (opcode i_ishl) →
  step execute method class s
  = Ok (Continue (binary_result s (int32_t (Z.shiftl a b)))).
Proof.
  intros Hb Hf. unfold binary_result. revert second top. open_case s Hf.
  intros second top. read_operand second. read_operand top.
  unfold c_shl. rewrite count_in_range by done. simpl. write_slot second. done.
Qed.

Lemma ishr_step :
  0 ≤ b < 32 →
  fetch method (pc s) = Ok (opcode i_ishr) →
  step execute method class s = Ok (Continue (binary_result s (Z.shiftr a b))).
Proof.
  intros Hb Hf. unfold binary_result. revert second top. open_case s Hf.
  intros second top. read_operand second. read_operand top.
  unfold c_shr. rewrite count_in_range by done. simpl. write_slot second. done.
Qed.

Lemma iushr_step :
  0 ≤ b < 32 →
  fetch method (pc s) = Ok (opcode i_iushr) →
  step execute method class s
  = Ok (Continue (binary_result s (int32_t (Z.shiftr (uint32_t a) b)))).
Proof.
  intros Hb Hf. unfold binary_result. revert second top. open_case s Hf.
  intros second top. read_operand second. read_operand top.
  unfold c_shru. rewrite count_in_range by done. simpl. write_slot second. done.
Qed.

(** The source shifts by [b] itself: outside [0, 32) the three shifts are
    undefined, whatever [a] is. *)
Lemma shift_count_out_of_range i :
  ¬ (0 ≤ b < 32) →
  i = i_ishl ∨ i = i_ishr ∨ i = i_iushr →
  fetch method (pc s) = Ok (opcode i) →
  step execute method class s = Fault UndefinedBehaviour.
Proof.
  intros Hb Hi Hf. revert second top. open_case s Hf.
  destruct Hi as [-> | [-> | ->]]; simpl; intros second top;
    read_operand second; read_operand top;
    unfold c_shl, c_shr, c_shru; by rewrite count_out_of_range.
Qed.

End Shifts.

Section Division.
Context `{CV : ClassView}.
Variables (execute : execute_t) (method : method_t) (class : class_file_t).
Variables (s : state) (a b : Z).
Hypothesis second : load (operand_stack s) (stack_idx s - 2) = Ok a.
Hypothesis top : load (operand_stack s) (stack_idx s - 1) = Ok b.

Lemma division_defined :
  b ≠ 0 → ¬ (a = INT32_MIN ∧ b = -1) →
  (b =? 0) || ((a =? INT32_MIN) && (b =? -1)) = false.
Proof.
  clear. intros Hb Hab. apply orb_false_iff. split; [by apply Z.eqb_neq|].
  apply andb_false_iff.
  destruct (Z.eqb_spec a INT32_MIN); [right; apply Z.eqb_neq; tauto | by left].
Qed.

(** The assertion on the divisor fails on a zero divisor, and only then. *)
Lemma division_by_zero i :
  i = i_idiv ∨ i = i_irem →
  fetch method (pc s) = Ok (opcode i) →
  (step execute method class s
   = Fault (AssertionFailure "operand_stack[stack_idx - 1] != 0") ↔ b = 0).
Proof.
  clear second. intros Hi Hf. revert top. open_case s Hf. intros top.
  destruct Hi as [-> | ->]; simpl; read_operand top;
    (destruct (Z.eqb_spec b 0) as [Hb|Hb]; simpl; [done|]);
    (split; [|done]); intros Hstep; exfalso;
    (destruct (load stk (idx - 1 - 1)) as [x|f] eqn:Hx; simpl in Hstep;
       [|apply load_Fault in Hx; by subst f]);
    unfold c_div, c_rem in Hstep;
    (destruct ((b =? 0) || _); simpl in Hstep; [done|]);
    (destruct (store stk _ _) as [stk'|f] eqn:Hs; simpl in Hstep; [done|]);
    apply store_Fault in Hs; by subst f.
Qed.

Lemma idiv_step :
  b ≠ 0 → ¬ (a = INT32_MIN ∧ b = -1) →
  fetch method (pc s) = Ok (opcode i_idiv) →
  step execute method class s = Ok (Continue (binary_result s (Z.quot a b))).
Proof.
  intros Hb Hab Hf. unfold binary_result. revert second top. open_case s Hf.
  intros second top. read_operand top.
  rewrite (proj2 (Z.eqb_neq b 0)) by done. simpl.
  read_operand second.
  unfold c_div. rewrite division_defined by done. simpl. write_slot second. done.
Qed.

Lemma irem_step :
  b ≠ 0 → ¬ (a = INT32_MIN ∧ b = -1) →
  fetch method (pc s) = Ok (opcode i_irem) →
  step execute method class s = Ok (Continue (binary_result s (Z.rem a b))).
Proof.
  intros Hb Hab Hf. unfold binary_result. revert second top. open_case s Hf.
  intros second top. read_operand top.
  rewrite (proj2 (Z.eqb_neq b 0)) by done. simpl.
  read_operand second.
  unfold c_rem. rewrite division_defined by done. simpl. write_slot second. done.
Qed.

(** The quotient of [INT32_MIN] by [-1] is no [int]: the division and
    the remainder are undefined. *)
Lemma division_overflow i :
  a = INT32_MIN → b = -1 →
  i = i_idiv ∨ i = i_irem →
  fetch method (pc s) = Ok (opcode i) →
  step execute method class s = Fault UndefinedBehaviour.
Proof.
  intros -> -> Hi Hf. revert second top. open_case s Hf.
  destruct Hi as [-> | ->]; simpl; intros second top;
    read_operand top; by read_operand second.
Qed.

End Division.

(** C5. [idiv] and [irem] on the operands [INT32_MIN] and [-1]: the
    divisor is not zero and the assertion passes, but the C division
    overflows and is undefined, where the quotient wraps to [INT32_MIN]
    and the remainder is 0. *)
Theorem idiv_irem_overflow :
  step (CV := class_view) no_calls (snippet [0x6c]) no_class
       (with_operands [INT32_MIN; -1]) = Fault UndefinedBehaviour
  ∧ step (CV := class_view) no_calls (snippet [0x70]) no_class
         (with_operands [INT32_MIN; -1]) = Fault UndefinedBehaviour.
Proof. split; reflexivity. Qed.

(** ** Branches *)

Section Branches.
Context `{CV : ClassView}.
Variables (execute : execute_t) (method : method_t) (class : class_file_t).
Variables (s : state) (b1 b2 : Z).
Hypothesis byte1 : fetch method (pc s + 1) = Ok b1.
Hypothesis byte2 : fetch method (pc s + 2) = Ok b2.

Lemma operand16_decoded : operand16 method (pc s) = Ok (decoded_offset b1 b2).
Proof. unfold operand16. by rewrite byte1, byte2. Qed.

(** A branch that is taken adds the offset decoded by the source to the
    address of the branch opcode, modulo the range of [size_t], and pops
    its operands. *)
Lemma branch_taken_step i x y :
  branch_condition i x y = Some true →
  (1 ≤ branch_pops i → load (operand_stack s) (stack_idx s - 1) = Ok y) →
  (2 ≤ branch_pops i → load (operand_stack s) (stack_idx s - 2) = Ok x) →
  fetch method (pc s) = Ok (opcode i) →
  step execute method class s
  = Ok (Continue (after s (size_t (pc s + decoded_offset b1 b2))
                        (operand_stack s) (stack_idx s - branch_pops i))).
Proof.
  intros Hcond Htop Hsecond Hf. pose proof operand16_decoded as Hop.
  revert Htop Hsecond Hop. open_case s Hf. intros Htop Hsecond Hop.
  destruct i; try discriminate Hcond; simpl in *;
    try (rewrite Hsecond by lia; simpl);
    try (rewrite Htop by lia; simpl);
    try (injection Hcond as ->); unfold branch; simpl; rewrite Hop; simpl;
    by rewrite ?Z.sub_0_r.
Qed.

(** A branch that is not taken moves to the next opcode. *)
Lemma branch_not_taken_step i x y :
  branch_condition i x y = Some false →
  (1 ≤ branch_pops i → load (operand_stack s) (stack_idx s - 1) = Ok y) →
  (2 ≤ branch_pops i → load (operand_stack s) (stack_idx s - 2) = Ok x) →
  fetch method (pc s) = Ok (opcode i) →
  step execute method class s
  = Ok (Continue (after s (size_t (pc s + 3))
                        (operand_stack s) (stack_idx s - branch_pops i))).
Proof.
  clear byte1 byte2. intros Hcond Htop Hsecond Hf.
  revert Htop Hsecond. open_case s Hf. intros Htop Hsecond.
  destruct i; try discriminate Hcond; simpl in *;
    try (rewrite Hsecond by lia; simpl);
    try (rewrite Htop by lia; simpl);
    by injection Hcond as ->.
Qed.

End Branches.

(** The offset decoded by the source is the branch offset of the
    class-file format exactly for the offsets in [0, 0x7f7f] whose low
    byte is below [0x80] and for the offsets from -128 to -1. *)
Lemma offsets_agree_iff b1 b2 :
  0 ≤ b1 < 256 → 0 ≤ b2 < 256 →
  decoded_offset b1 b2 = branch_offset b1 b2
  ↔ (b1 < 128 ∧ b2 < 128) ∨ (b1 = 255 ∧ 128 ≤ b2).
Proof.
  intros Hb1 Hb2.
  assert (forallb (λ b1, forallb (λ b2,
            Bool.eqb (offsets_agree b1 b2)
                     ((b1 <? 128) && (b2 <? 128) || (b1 =? 255) && (128 <=? b2)))
            (seqZ 0 256)) (seqZ 0 256) = true) as Hall by (vm_compute; reflexivity).
  rewrite forallb_forall in Hall.
  specialize (Hall b1). rewrite forallb_forall in Hall.
  assert (In b1 (seqZ 0 256)) as Hin1 by (apply list_elem_of_In, elem_of_seqZ; lia).
  assert (In b2 (seqZ 0 256)) as Hin2 by (apply list_elem_of_In, elem_of_seqZ; lia).
  specialize (Hall Hin1 b2 Hin2). apply Bool.eqb_prop in Hall.
  unfold offsets_agree in Hall. rewrite <- Z.eqb_eq, Hall.
  rewrite orb_true_iff, !andb_true_iff, !Z.ltb_lt, Z.eqb_eq, Z.leb_le. done.
Qed.

(** Every offset whose low byte has its high bit set is misread, those
    from -128 to -1 apart. *)
Lemma low_byte_high_bit_misread b1 b2 :
  0 ≤ b1 < 255 → 128 ≤ b2 < 256 →
  decoded_offset b1 b2 ≠ branch_offset b1 b2.
Proof. intros Hb1 Hb2 Heq. apply offsets_agree_iff in Heq; lia. Qed.

(** C1. A branch whose offset has the high bit of its low byte set:
    [goto] and [ifeq] (on the operand 0) at address 0 with the offset
    bytes [00 80], that is +128. The source reads the low byte as an
    [int8_t] and moves [pc] by -128, to [2^64 - 128], where the offset of
    the class-file format leads to address 128; the method [jump_128]
    then leaves the loop and returns without printing. *)
Theorem branch_low_byte_sign_extended :
  step (CV := class_view) no_calls (snippet [0xa7; 0x00; 0x80]) no_class
       (with_operands [])
  = Ok (Continue (after (with_operands []) (2 ^ 64 - 128)
                        (operand_stack (with_operands [])) 0))
  ∧ step (CV := class_view) no_calls (snippet [0x99; 0x00; 0x80]) no_class
         (with_operands [0])
    = Ok (Continue (after (with_operands [0]) (2 ^ 64 - 128)
                          (operand_stack (with_operands [0])) 0))
  ∧ size_t (0 + branch_offset 0x00 0x80) = 128
  ∧ execute (CV := class_view) 200 no_class jump_128 (replicate 4 0) heap_init []
    = Ok ({| has_value := false; value := 0 |}, heap_init, []).
Proof. repeat split; vm_compute; reflexivity. Qed.

(** C4. A byte that is the value of no opcode of the subset selects no
    case of the [switch], which has no [default]: the turn of the loop
    changes nothing, [pc] stays on the byte, and the loop never ends;
    [execute] neither aborts nor returns, whatever the bound. *)
Theorem unknown_opcode_loops `{CV : ClassView} method class s byte :
  pc s < code_length (code_attribute method) →
  fetch method (pc s) = Ok byte →
  decode byte = None →
  (∀ execute, step execute method class s = Ok (Continue s))
  ∧ ∀ fuel, run fuel method class s = Fault OutOfFuel.
Proof.
  intros Hpc Hf Hd.
  assert (∀ execute, step execute method class s = Ok (Continue s)) as Hstep.
  { intros execute. destruct s. unfold step. simpl in *. rewrite Hf. simpl.
    by rewrite Hd. }
  split; [done|]. intros fuel. induction fuel as [|fuel IH]; [done|].
  simpl. rewrite (proj2 (Z.ltb_lt _ _) Hpc), Hstep. done.
Qed.

(** The opcode [pop] (0x57), which the subset does not define. *)
Lemma unknown_opcode_loops_witness :
  (∀ execute, step (CV := class_view) execute (snippet [0x57]) no_class
                   (with_operands [3]) = Ok (Continue (with_operands [3])))
  ∧ ∀ fuel, run (CV := class_view) fuel (snippet [0x57]) no_class
                (with_operands [3]) = Fault OutOfFuel.
Proof.
  apply (unknown_opcode_loops (CV := class_view) (snippet [0x57]) no_class
           (with_operands [3]) 0x57); reflexivity.
Defined.

(** ** The heap *)

Section Heap.
Implicit Types (heap : heap_t) (array : list Z).

Lemma heap_get_add heap array heap' ref :
  heap_add heap array = (heap', ref) → heap_get heap' ref = Ok array.
Proof.
  intros [= <- <-]. apply load_Ok. split; [lia|].
  rewrite Nat2Z.id. apply list_lookup_middle. done.
Qed.

Lemma heap_get_add_old heap array heap' ref ref' :
  heap_add heap array = (heap', ref) → ref' ≠ ref →
  heap_get heap' ref' = heap_get heap ref'.
Proof.
  intros [= <- <-] Hne. unfold heap_get, load.
  destruct (Z.leb_spec 0 ref'); [|done].
  destruct (decide (Z.to_nat ref' < length heap)%nat).
  - by rewrite lookup_app_l.
  - rewrite !(lookup_ge_None_2 _ (Z.to_nat ref')); [done|lia|].
    rewrite length_app. simpl. lia.
Qed.

Lemma heap_slot_Ok heap ref i x :
  heap_slot heap ref i = Ok x
  ↔ ∃ array, heap_get heap ref = Ok array ∧ load array i = Ok x.
Proof.
  unfold heap_slot. destruct (heap_get heap ref) as [array|f]; simpl.
  - split; [by exists array | by intros (? & [= <-] & ?)].
  - split; [done | by intros (? & ? & ?)].
Qed.

Lemma heap_set_Ok heap ref array i x y :
  heap_get heap ref = Ok array → load array i = Ok y →
  heap_set heap ref i x
  = Ok (<[Z.to_nat ref := <[Z.to_nat i := x]> array]> heap).
Proof.
  intros Hget Hi. unfold heap_set. rewrite Hget. simpl.
  rewrite store_Ok by eauto using load_length. simpl.
  apply store_Ok. eauto using load_length.
Qed.

Lemma heap_set_inv heap ref i x heap' :
  heap_set heap ref i x = Ok heap' →
  ∃ array y, heap_get heap ref = Ok array ∧ load array i = Ok y
             ∧ heap' = <[Z.to_nat ref := <[Z.to_nat i := x]> array]> heap.
Proof.
  unfold heap_set. destruct (heap_get heap ref) as [array|] eqn:Hget; [|done].
  simpl. destruct (decide (0 ≤ i < Z.of_nat (length array))) as [Hi|Hi].
  - rewrite store_Ok by done. simpl.
    rewrite store_Ok by eauto using load_length. intros [= <-].
    destruct (load_in_range array i) as [y Hy]; [done|]. by exists array, y.
  - by rewrite store_out_of_range.
Qed.

(** After [heap_get(heap, ref)[i] = x] the slot holds [x], and every
    other slot of the heap what it held. *)
Lemma heap_slot_set heap ref i x heap' :
  heap_set heap ref i x = Ok heap' → heap_slot heap' ref i = Ok x.
Proof.
  intros (array & y & Hget & Hy & ->)%heap_set_inv.
  apply heap_slot_Ok. exists (<[Z.to_nat i := x]> array). split.
  - eapply load_insert. done.
  - by eapply load_insert.
Qed.

Lemma heap_slot_set_ne heap ref i x heap' ref' j :
  heap_set heap ref i x = Ok heap' → (ref', j) ≠ (ref, i) →
  heap_slot heap' ref' j = heap_slot heap ref' j.
Proof.
  intros (array & y & Hget & Hy & ->)%heap_set_inv Hne.
  pose proof (load_length _ _ _ Hget) as Href.
  pose proof (load_length _ _ _ Hy) as Hi.
  unfold heap_slot, heap_get. destruct (decide (ref' = ref)) as [->|Hr].
  - rewrite (load_insert _ _ _ _ Hget). unfold heap_get in Hget.
    rewrite Hget. simpl. apply load_insert_ne; [lia|]. congruence.
  - rewrite load_insert_ne by lia. done.
Qed.

End Heap.

(** ** Arrays on the heap *)

Section ArrayCases.
Context `{CV : ClassView}.
Variables (execute : execute_t) (method : method_t) (class : class_file_t).
Variables (s : state).

(** [iastore] writes the slot [index + 1] of the buffer of [ref]. *)
Lemma iastore_step ref index x heap' :
  fetch method (pc s) = Ok (opcode i_iastore) →
  load (operand_stack s) (stack_idx s - 3) = Ok ref →
  load (operand_stack s) (stack_idx s - 2) = Ok index →
  load (operand_stack s) (stack_idx s - 1) = Ok x →
  heap_set (heap s) ref (int32_t (index + 1)) x = Ok heap' →
  step execute method class s
  = Ok (Continue (after_heap s (size_t (pc s + 1)) (operand_stack s)
                             (stack_idx s - 3) heap')).
Proof.
  intros Hf Href Hindex Hx Hset. unfold after_heap.
  revert Href Hindex Hx Hset. open_case s Hf. intros Href Hindex Hx Hset.
  rewrite Href. simpl. rewrite Hindex. simpl. rewrite Hx. simpl.
  by rewrite Hset.
Qed.

(** [iaload] reads the slot [index + 1] of the buffer of [ref]. *)
Lemma iaload_step ref index x :
  fetch method (pc s) = Ok (opcode i_iaload) →
  load (operand_stack s) (stack_idx s - 2) = Ok ref →
  load (operand_stack s) (stack_idx s - 1) = Ok index →
  heap_slot (heap s) ref (int32_t (index + 1)) = Ok x →
  step execute method class s = Ok (Continue (binary_result s x)).
Proof.
  intros Hf Href Hindex (array & Hget & Hx)%heap_slot_Ok. unfold binary_result.
  revert Href Hindex Hget. open_case s Hf. intros Href Hindex Hget.
  read_operand Href. rewrite Hget. simpl. rewrite Hindex. simpl.
  rewrite Hx. simpl. write_slot Href. done.
Qed.

(** [arraylength] reads the slot 0 of the buffer of [ref]. *)
Lemma arraylength_step ref len :
  fetch method (pc s) = Ok (opcode i_arraylength) →
  load (operand_stack s) (stack_idx s - 1) = Ok ref →
  heap_slot (heap s) ref 0 = Ok len →
  step execute method class s = Ok (Continue (unary_result s len)).
Proof.
  intros Hf Href (array & Hget & Hlen)%heap_slot_Ok. unfold unary_result.
  revert Href Hget. open_case s Hf. intros Href Hget.
  rewrite Href. simpl. rewrite Hget. simpl. rewrite Hlen. simpl.
  write_slot Href. done.
Qed.

End ArrayCases.

Section NewArray.
Context `{CV : ClassView}.
Variables (execute : execute_t) (method : method_t) (class : class_file_t).
Variables (s : state).

(** An array of [nmemb] elements of four bytes is allocated, zeroed,
    whenever [nmemb] is a count that fits 31 bits. *)
Lemma calloc_int32 nmemb :
  0 ≤ nmemb < 2 ^ 31 → calloc 4 nmemb = replicate (Z.to_nat nmemb) 0.
Proof.
  intros Hn. unfold calloc, size_t, unsigned.
  rewrite (Z.mod_small 4), (Z.mod_small nmemb) by lia.
  rewrite (proj2 (Z.ltb_lt _ _)) by lia.
  by rewrite Z.mul_comm, Z.div_mul.
Qed.

(** Zeroing slots that are zero already changes nothing. *)
Lemma clear_from_zeros count (array : list Z) i :
  0 ≤ i →
  (∀ j, i ≤ j < i + Z.of_nat count → load array j = Ok 0) →
  clear_from count array i = Ok array.
Proof.
  revert i. induction count as [|count IH]; intros i Hi Hzero; [done|].
  simpl. pose proof (Hzero i ltac:(lia)) as Hload.
  rewrite store_Ok by eauto using load_length. simpl.
  apply load_Ok in Hload as [_ Hlookup].
  rewrite list_insert_id by done. apply IH; [lia|].
  intros j Hj. apply Hzero. lia.
Qed.

(** The array object that [newarray] builds for the length [n]. *)
Lemma newarray_step n :
  0 ≤ n < INT32_MAX →
  fetch method (pc s) = Ok (opcode i_newarray) →
  load (operand_stack s) (stack_idx s - 1) = Ok n →
  step execute method class s
  = Ok (Continue (after_heap s (size_t (pc s + 2))
                    (poke (operand_stack s) (stack_idx s - 1)
                          (Z.of_nat (length (heap s))))
                    (stack_idx s)
                    (heap s ++ [n :: replicate (Z.to_nat n) 0]))).
Proof.
  unfold INT32_MAX. intros Hn Hf Htop. unfold after_heap.
  revert Htop. open_case s Hf. intros Htop. rewrite Htop. simpl.
  rewrite int32_t_id by (unfold INT32_MIN, INT32_MAX; lia).
  rewrite calloc_int32 by lia.
  replace (Z.to_nat (n + 1)) with (S (Z.to_nat n)) by lia. simpl.
  rewrite clear_from_zeros; [simpl| lia |].
  - write_slot Htop. done.
  - intros j Hj. apply load_Ok. split; [lia|].
    replace (Z.to_nat j) with (S (Z.to_nat (j - 1))) by lia. simpl.
    apply lookup_replicate_2. lia.
Qed.

End NewArray.

Section ArrayClaims.
Context `{CV : ClassView}.
Variables (execute : execute_t) (method : method_t) (class : class_file_t).

(** [iastore] on a slot that exists, the length slot included: the slot
    [index + 1] then holds [x], no other slot of the heap has changed, and
    nothing but the heap, [pc] and [stack_idx] has. *)
Lemma iastore_writes s ref index x old :
  heap_slot (heap s) ref (index + 1) = Ok old →
  index < INT32_MAX →
  fetch method (pc s) = Ok (opcode i_iastore) →
  load (operand_stack s) (stack_idx s - 3) = Ok ref →
  load (operand_stack s) (stack_idx s - 2) = Ok index →
  load (operand_stack s) (stack_idx s - 1) = Ok x →
  ∃ heap',
    step execute method class s
    = Ok (Continue (after_heap s (size_t (pc s + 1)) (operand_stack s)
                               (stack_idx s - 3) heap'))
    ∧ heap_slot heap' ref (index + 1) = Ok x
    ∧ ∀ ref' j, (ref', j) ≠ (ref, index + 1) →
                heap_slot heap' ref' j = heap_slot (heap s) ref' j.
Proof.
  intros (array & Hget & Hold)%heap_slot_Ok Hmax Hf Href Hi Hx.
  assert (int32_t (index + 1) = index + 1) as Hslot.
  { apply int32_t_id. apply load_length in Hold.
    unfold INT32_MIN, INT32_MAX in *. lia. }
  pose proof (heap_set_Ok _ _ _ _ x _ Hget Hold) as Hset.
  eexists. split; [|split].
  - eapply iastore_step; try done. by rewrite Hslot.
  - by eapply heap_slot_set.
  - intros ref' j Hne. by eapply heap_slot_set_ne.
Qed.

(** [iaload] on a slot that exists. *)
Lemma iaload_reads s ref index x :
  heap_slot (heap s) ref (index + 1) = Ok x →
  index < INT32_MAX →
  fetch method (pc s) = Ok (opcode i_iaload) →
  load (operand_stack s) (stack_idx s - 2) = Ok ref →
  load (operand_stack s) (stack_idx s - 1) = Ok index →
  step execute method class s = Ok (Continue (binary_result s x)).
Proof.
  intros Hslot Hmax Hf Href Hi. eapply iaload_step; try done.
  rewrite int32_t_id; [done|].
  apply heap_slot_Ok in Hslot as (array & _ & Hx%load_length).
  unfold INT32_MIN, INT32_MAX in *. lia.
Qed.

End ArrayClaims.

(** C7. [iastore] with the operands [(ref, index, x)], followed by
    [iaload] with the operands [(ref, index)] in any later state in which
    that slot has not been written, pushes exactly [x]: both opcodes
    address the slot [index + 1] of the buffer of [ref], and [iastore]
    changes no other slot. The slot is one that exists, with the index
    [index + 1] an [int32_t]. *)
Theorem iastore_then_iaload `{CV : ClassView} execute method class s ref index x old :
  heap_slot (heap s) ref (index + 1) = Ok old →
  index < INT32_MAX →
  fetch method (pc s) = Ok (opcode i_iastore) →
  load (operand_stack s) (stack_idx s - 3) = Ok ref →
  load (operand_stack s) (stack_idx s - 2) = Ok index →
  load (operand_stack s) (stack_idx s - 1) = Ok x →
  ∃ heap',
    step execute method class s
    = Ok (Continue (after_heap s (size_t (pc s + 1)) (operand_stack s)
                               (stack_idx s - 3) heap'))
    ∧ heap_slot heap' ref (index + 1) = Ok x
    ∧ (∀ ref' j, (ref', j) ≠ (ref, index + 1) →
                 heap_slot heap' ref' j = heap_slot (heap s) ref' j)
    ∧ ∀ execute' method' class' s',
        heap_slot (heap s') ref (index + 1) = heap_slot heap' ref (index + 1) →
        fetch method' (pc s') = Ok (opcode i_iaload) →
        load (operand_stack s') (stack_idx s' - 2) = Ok ref →
        load (operand_stack s') (stack_idx s' - 1) = Ok index →
        step execute' method' class' s' = Ok (Continue (binary_result s' x)).
Proof.
  intros Hold Hmax Hf Href Hi Hx.
  destruct (iastore_writes execute method class s ref index x old)
    as (heap' & Hstep & Hslot & Hother); try done.
  exists heap'. repeat split; try done.
  intros execute' method' class' s' Hsame Hf' Href' Hi'.
  rewrite Hslot in Hsame. by eapply iaload_reads.
Qed.

Lemma iastore_then_iaload_witness :
  ∃ heap',
    step (CV := class_view) no_calls (snippet [0x4f]) no_class
         (with_heap [[3; 0; 0; 0]] [0; 1; 42])
    = Ok (Continue (after_heap (with_heap [[3; 0; 0; 0]] [0; 1; 42]) 1
                               [0; 1; 42; 0] 0 heap'))
    ∧ heap_slot heap' 0 2 = Ok 42.
Proof.
  destruct (iastore_then_iaload (CV := class_view) no_calls (snippet [0x4f])
              no_class (with_heap [[3; 0; 0; 0]] [0; 1; 42]) 0 1 42 0)
    as (heap' & Hstep & Hslot & _).
  - reflexivity.
  - unfold INT32_MAX. lia.
  - reflexivity.
  - reflexivity.
  - reflexivity.
  - reflexivity.
  - exists heap'. split; [exact Hstep | exact Hslot].
Defined.

(** C8, as amended. For every length [n] with [0 <= n < INT32_MAX],
    [newarray] with [n] on top of the stack replaces it by the reference
    that [heap_add] returns for the new buffer, which is an array object
    of length [n]; in any later state in which the length slot has not
    been written, [arraylength] on that reference pushes exactly [n]; and
    for every [0 <= i < n], [iaload] of the element [i], while its slot
    has not been written, reads 0. *)
Theorem newarray_then_arraylength `{CV : ClassView} execute method class s n :
  0 ≤ n < INT32_MAX →
  fetch method (pc s) = Ok (opcode i_newarray) →
  load (operand_stack s) (stack_idx s - 1) = Ok n →
  ∃ array heap' ref,
    heap_add (heap s) array = (heap', ref)
    ∧ step execute method class s
      = Ok (Continue (after_heap s (size_t (pc s + 2))
                        (poke (operand_stack s) (stack_idx s - 1) ref)
                        (stack_idx s) heap'))
    ∧ array_object heap' ref n
    ∧ (∀ execute' method' class' s',
         heap_slot (heap s') ref 0 = heap_slot heap' ref 0 →
         fetch method' (pc s') = Ok (opcode i_arraylength) →
         load (operand_stack s') (stack_idx s' - 1) = Ok ref →
         step execute' method' class' s' = Ok (Continue (unary_result s' n)))
    ∧ (∀ execute' method' class' s' i,
         0 ≤ i < n →
         heap_slot (heap s') ref (i + 1) = heap_slot heap' ref (i + 1) →
         fetch method' (pc s') = Ok (opcode i_iaload) →
         load (operand_stack s') (stack_idx s' - 2) = Ok ref →
         load (operand_stack s') (stack_idx s' - 1) = Ok i →
         step execute' method' class' s' = Ok (Continue (binary_result s' 0))).
Proof.
  intros Hn Hf Htop.
  set (array := n :: replicate (Z.to_nat n) 0).
  destruct (heap_add (heap s) array) as [heap' ref] eqn:Hadd.
  pose proof (heap_get_add _ _ _ _ Hadd) as Hget.
  exists array, heap', ref. injection Hadd as <- <-.
  assert (∀ i, 0 ≤ i < n → load array (i + 1) = Ok 0) as Hzero.
  { intros i Hi. apply load_Ok. split; [lia|]. subst array.
    replace (Z.to_nat (i + 1)) with (S (Z.to_nat i)) by lia. simpl.
    apply lookup_replicate_2. lia. }
  split; [done|]. split; [by apply newarray_step|]. split; [|split].
  - exists (replicate (Z.to_nat n) 0). split; [done|].
    rewrite length_replicate. lia.
  - intros execute' method' class' s' Hsame Hf' Href.
    eapply arraylength_step; try done. rewrite Hsame.
    apply heap_slot_Ok. by exists array.
  - intros execute' method' class' s' i Hi Hsame Hf' Href Hindex.
    eapply iaload_reads; try done; [|lia]. rewrite Hsame.
    apply heap_slot_Ok. exists array. auto.
Qed.

Lemma newarray_then_arraylength_witness :
  ∃ array heap' ref,
    heap_add heap_init array = (heap', ref)
    ∧ step (CV := class_view) no_calls (snippet [0xbc; 0x0a]) no_class
           (with_operands [3])
      = Ok (Continue (after_heap (with_operands [3]) 2 [ref; 0; 0; 0] 1 heap'))
    ∧ array_object heap' ref 3.
Proof.
  destruct (newarray_then_arraylength (CV := class_view) no_calls
              (snippet [0xbc; 0x0a]) no_class (with_operands [3]) 3)
    as (array & heap' & ref & Hadd & Hstep & Hobject & _).
  - unfold INT32_MAX. lia.
  - reflexivity.
  - reflexivity.
  - exists array, heap', ref. split; [exact Hadd | split; [exact Hstep | exact Hobject]].
Defined.

(** C8, as stated, fails on the length [INT32_MAX]: the count [n + 1] of
    slots wraps to [INT32_MIN], no buffer of that size is allocated and
    the write of the length slot is undefined, so that no reference is
    pushed. *)
Lemma newarray_INT32_MAX :
  0 ≤ INT32_MAX
  ∧ load (operand_stack (with_operands [INT32_MAX]))
         (stack_idx (with_operands [INT32_MAX]) - 1) = Ok INT32_MAX
  ∧ ¬ ∃ s', step (CV := class_view) no_calls (snippet [0xbc; 0x0a]) no_class
                 (with_operands [INT32_MAX]) = Ok (Continue s').
Proof.
  split; [done|]. split; [reflexivity|]. intros [s' Hs']. vm_compute in Hs'.
  discriminate Hs'.
Qed.

(** C9. [iastore] does not check the index: on an array object of length
    [n], with the operands [(ref, -1, x)], it writes the slot 0, which
    holds the length; in any later state in which that slot has not been
    written again, [arraylength] on [ref] pushes [x], whatever [n] was. *)
Theorem iastore_overwrites_length `{CV : ClassView} execute method class s ref n x :
  array_object (heap s) ref n →
  fetch method (pc s) = Ok (opcode i_iastore) →
  load (operand_stack s) (stack_idx s - 3) = Ok ref →
  load (operand_stack s) (stack_idx s - 2) = Ok (-1) →
  load (operand_stack s) (stack_idx s - 1) = Ok x →
  ∃ heap',
    step execute method class s
    = Ok (Continue (after_heap s (size_t (pc s + 1)) (operand_stack s)
                               (stack_idx s - 3) heap'))
    ∧ heap_slot (heap s) ref 0 = Ok n
    ∧ heap_slot heap' ref 0 = Ok x
    ∧ ∀ execute' method' class' s',
        heap_slot (heap s') ref 0 = heap_slot heap' ref 0 →
        fetch method' (pc s') = Ok (opcode i_arraylength) →
        load (operand_stack s') (stack_idx s' - 1) = Ok ref →
        step execute' method' class' s' = Ok (Continue (unary_result s' x)).
Proof.
  intros Harray Hf Href Hi Hx.
  assert (heap_slot (heap s) ref 0 = Ok n) as Hlength.
  { destruct Harray as (elements & Hget & _). apply heap_slot_Ok. eauto. }
  destruct (iastore_writes execute method class s ref (-1) x n)
    as (heap' & Hstep & Hslot & _); try done.
  exists heap'. split; [done|]. split; [done|]. split; [done|].
  intros execute' method' class' s' Hsame Hf' Href'.
  eapply arraylength_step; try done. by rewrite Hsame.
Qed.

Lemma iastore_overwrites_length_witness :
  ∃ heap',
    step (CV := class_view) no_calls (snippet [0x4f]) no_class
         (with_heap [[3; 0; 0; 0]] [0; -1; 42])
    = Ok (Continue (after_heap (with_heap [[3; 0; 0; 0]] [0; -1; 42]) 1
                               [0; -1; 42; 0] 0 heap'))
    ∧ heap_slot heap' 0 0 = Ok 42.
Proof.
  destruct (iastore_overwrites_length (CV := class_view) no_calls
              (snippet [0x4f]) no_class
              (with_heap [[3; 0; 0; 0]] [0; -1; 42]) 0 3 42)
    as (heap' & Hstep & _ & Hslot & _).
  - exists [0; 0; 0]. split; [reflexivity | split; [reflexivity | unfold INT32_MAX; lia]].
  - reflexivity.
  - reflexivity.
  - reflexivity.
  - reflexivity.
  - exists heap'. split; [exact Hstep | exact Hslot].
Defined.

(** ** Static invocation *)

Section Invocation.
Context `{CV : ClassView}.

(** The loop that pops the parameters takes the [n] topmost operands,
    the deepest first, into the first [n] slots of the callee's locals. *)
Lemma pop_params_spec n (stack : list Z) idx (callee_locals : list Z) :
  Z.of_nat n ≤ idx ≤ Z.of_nat (length stack) →
  (n ≤ length callee_locals)%nat →
  pop_params n stack idx callee_locals
  = Ok (idx - Z.of_nat n,
        take n (drop (Z.to_nat idx - n) stack) ++ drop n callee_locals).
Proof.
  revert idx callee_locals.
  induction n as [|n IH]; intros idx callee_locals Hidx Hlen.
  { simpl. by rewrite Z.sub_0_r. }
  simpl pop_params.
  destruct (load_in_range stack (idx - 1)) as [x Hx]; [lia|].
  rewrite Hx. simpl. rewrite store_Ok by lia. simpl. rewrite Nat2Z.id.
  rewrite IH by (rewrite ?length_insert; lia).
  f_equal. f_equal; [lia|].
  apply load_Ok in Hx as [_ Hx].
  replace (Z.to_nat (idx - 1) - n)%nat with (Z.to_nat idx - S n)%nat by lia.
  rewrite (take_S_r _ n x).
  - rewrite <- app_assoc. f_equal. simpl.
    rewrite drop_insert_ge by lia. rewrite Nat.sub_diag.
    destruct (lookup_lt_is_Some_2 callee_locals n) as [y Hy]; [lia|].
    by rewrite (drop_S _ y n Hy).
  - rewrite lookup_drop. rewrite <- Hx. f_equal. lia.
Qed.

(** The locals that hold the [k] topmost operands in their first slots,
    in the order they were pushed, and zeros in the others. *)
Lemma callee_locals_unique (stack callee_locals : list Z) (k m d : nat) :
  (k ≤ m)%nat → (d + k ≤ length stack)%nat →
  length callee_locals = m →
  (∀ i, (i < k)%nat → callee_locals !! i = stack !! (d + i)%nat) →
  (∀ i, (k ≤ i < m)%nat → callee_locals !! i = Some 0) →
  callee_locals = take k (drop d stack) ++ replicate (m - k) 0.
Proof.
  intros Hkm Hdk Hlen Hparams Hzeros. apply list_eq. intros i.
  assert (length (take k (drop d stack)) = k) as Htake.
  { rewrite length_take, length_drop. lia. }
  destruct (decide (i < k)%nat) as [Hi|Hi].
  - rewrite lookup_app_l by lia. rewrite lookup_take_lt by done.
    rewrite lookup_drop. by apply Hparams.
  - rewrite lookup_app_r by lia. rewrite Htake.
    destruct (decide (i < m)%nat) as [Hm|Hm].
    + rewrite Hzeros by lia. symmetry. apply lookup_replicate_2. lia.
    + rewrite !lookup_ge_None_2; [done | rewrite length_replicate; lia | lia].
Qed.

(** The interpreter that the loop calls in the case [i_invokestatic] is
    [execute] itself, on the rest of the bound. *)
Lemma run_S fuel method class s :
  run (S fuel) method class s
  = if pc s <? code_length (code_attribute method) then
      r ← step (execute fuel class) method class s;
      match r with
      | Continue s => run fuel method class s
      | Return result heap out => Ok (result, heap, out)
      end
    else Ok ({| has_value := false; value := 0 |}, heap s, stdout s).
Proof. reflexivity. Qed.

End Invocation.

(** X24. [invokestatic] takes its callee from [find_method_from_index]
    at the index that the source decodes from the operand bytes. When
    that lookup gives a callee that takes [k] parameters: the [k]
    topmost operands are popped into the callee's locals, the [i]-th
    parameter from the left (the operand at [stack_idx - k + i]) into
    [locals[i]], the other locals up to [max_locals] are zero, the
    interpreter runs the callee on them, the value the callee returns is
    pushed if and only if it returned one, and [pc] advances by 3: the
    stack height changes by [1 - k] for a callee that returns a value and
    by [- k] for a void one. *)
Theorem invokestatic_passes_parameters `{CV : ClassView} fuel method class s
    index callee k callee_locals ret heap' out' :
  fetch method (pc s) = Ok (opcode i_invokestatic) →
  operand16 method (pc s) = Ok index →
  find_method_from_index index class = Some callee →
  get_number_of_parameters callee = k →
  0 ≤ k < 2 ^ 15 →
  k ≤ max_locals (code_attribute callee) < 2 ^ 16 →
  k ≤ stack_idx s ≤ Z.of_nat (length (operand_stack s)) →
  Z.of_nat (length callee_locals) = max_locals (code_attribute callee) →
  (∀ i, 0 ≤ i < k →
        load callee_locals i = load (operand_stack s) (stack_idx s - k + i)) →
  (∀ i, k ≤ i < max_locals (code_attribute callee) →
        load callee_locals i = Ok 0) →
  execute fuel class callee callee_locals (heap s) (stdout s)
  = Ok (ret, heap', out') →
  (has_value ret = true →
   stack_idx s - k < Z.of_nat (length (operand_stack s))) →
  step (execute fuel class) method class s
  = Ok (Continue (after_call s k ret heap' out'))
  ∧ stack_idx (after_call s k ret heap' out')
    = stack_idx s + (if has_value ret then 1 - k else - k)
  ∧ pc (after_call s k ret heap' out') = size_t (pc s + 3).
Proof.
  intros Hf Hindex Hcallee Hk Hk15 Hlocals Hidx Hlen Hparams Hzeros Hexec Hroom.
  split; [|split; [simpl; destruct (has_value ret); lia | done]].
  unfold after_call. revert Hindex Hidx Hparams Hexec Hroom. open_case s Hf.
  intros Hindex Hidx Hparams Hexec Hroom.
  rewrite Hindex. simpl. rewrite Hcallee, Hk.
  replace (int16_t k) with k
    by (symmetry; apply (signed_id 16); change (2 ^ (16 - 1)) with (2 ^ 15); lia).
  rewrite calloc_int32 by lia.
  rewrite pop_params_spec by (rewrite ?length_replicate; lia). simpl.
  rewrite drop_replicate, Z2Nat.id by lia.
  set (m := Z.to_nat (max_locals (code_attribute callee))).
  rewrite <- (callee_locals_unique stk callee_locals (Z.to_nat k) m).
  - rewrite Hexec. simpl. destruct (has_value ret); [|by rewrite Z.add_0_r].
    rewrite store_Ok by (specialize (Hroom eq_refl); lia). done.
  - lia.
  - lia.
  - lia.
  - intros i Hi. specialize (Hparams (Z.of_nat i) ltac:(lia)).
    destruct (load_in_range stk (idx - k + Z.of_nat i)) as [x Hx]; [lia|].
    rewrite Hx in Hparams. apply load_Ok in Hx as [_ Hx].
    apply load_Ok in Hparams as [_ Hparams].
    rewrite Nat2Z.id in Hparams. rewrite Hparams, <- Hx. f_equal. lia.
  - intros i Hi. specialize (Hzeros (Z.of_nat i) ltac:(lia)).
    apply load_Ok in Hzeros as [_ Hzeros]. by rewrite Nat2Z.id in Hzeros.
Qed.

(** [sub(7, 3)]: the first parameter, the deeper operand, is [locals[0]]
    of the callee, and the result 4 replaces both operands. *)
Lemma invokestatic_passes_parameters_witness :
  step (CV := class_view) (execute (CV := class_view) 10 sub_class)
       (snippet [0xb8; 0x00; 0x01]) sub_class (with_operands [7; 3])
  = Ok (Continue (State 3 [4; 3; 0; 0] 1 (replicate 4 0) heap_init [])).
Proof.
  refine (proj1 (invokestatic_passes_parameters (CV := class_view) 10
            (snippet [0xb8; 0x00; 0x01]) sub_class (with_operands [7; 3])
            1 sub_method 2 [7; 3] {| has_value := true; value := 4 |}
            heap_init [] _ _ _ _ _ _ _ _ _ _ _ _)).
  - reflexivity.
  - reflexivity.
  - reflexivity.
  - reflexivity.
  - lia.
  - simpl. lia.
  - simpl. lia.
  - reflexivity.
  - intros i Hi. assert (i = 0 ∨ i = 1) as [-> | ->] by lia; reflexivity.
  - simpl. intros i Hi. lia.
  - reflexivity.
  - simpl. lia.
Defined.

(** The index that the source decodes, [(b1 << 8) | b2] with [b2] an
    [int8_t], is negative as soon as the low byte has its high bit set,
    whatever the high byte; the index that the bytes name is positive. *)
Lemma low_index_byte_high_bit b1 b2 :
  0 ≤ b1 < 256 → 128 ≤ b2 < 256 →
  decoded_offset b1 b2 = b2 - 256 ∧ 0 < constant_index b1 b2.
Proof.
  intros Hb1 Hb2.
  assert (forallb (λ b1, forallb (λ b2,
            (decoded_offset b1 b2 =? b2 - 256) && (0 <? constant_index b1 b2))
            (seqZ 128 128)) (seqZ 0 256) = true) as Hall by (vm_compute; reflexivity).
  rewrite forallb_forall in Hall.
  specialize (Hall b1). rewrite forallb_forall in Hall.
  assert (In b1 (seqZ 0 256)) as Hin1 by (apply list_elem_of_In, elem_of_seqZ; lia).
  assert (In b2 (seqZ 128 128)) as Hin2 by (apply list_elem_of_In, elem_of_seqZ; lia).
  specialize (Hall Hin1 b2 Hin2).
  apply andb_true_iff in Hall as [Hd%Z.eqb_eq Hc%Z.ltb_lt]. done.
Qed.

(** C2. An [invokestatic] whose index has the high bit of its low byte
    set does not call the method that its bytes name. The source reads
    the low byte as an [int8_t], as it does for the branch offsets: the
    index it looks up is [b2 - 256], a negative number and never the
    index [(b1 << 8) | b2] of the class-file format, and when the lookup
    finds no method there the call is undefined, where the named callee
    should have run on the operands popped. *)
Theorem invokestatic_index_low_byte `{CV : ClassView} execute method class s b1 b2 :
  fetch method (pc s) = Ok (opcode i_invokestatic) →
  fetch method (pc s + 1) = Ok b1 →
  fetch method (pc s + 2) = Ok b2 →
  128 ≤ b2 →
  operand16 method (pc s) = Ok (b2 - 256)
  ∧ b2 - 256 < 0 < constant_index b1 b2
  ∧ (find_method_from_index (b2 - 256) class = None →
     step execute method class s = Fault UndefinedBehaviour).
Proof.
  intros Hf Hb1 Hb2 Hhigh.
  pose proof (fetch_range _ _ _ Hb1) as Hr1.
  pose proof (fetch_range _ _ _ Hb2) as Hr2.
  destruct (low_index_byte_high_bit b1 b2) as [Hd Hc]; [lia|lia|].
  assert (operand16 method (pc s) = Ok (b2 - 256)) as Hindex.
  { rewrite (operand16_decoded method s b1 b2 Hb1 Hb2). by rewrite Hd. }
  split; [done|]. split; [lia|].
  intros Hnone. revert Hindex Hnone. open_case s Hf. intros Hindex Hnone.
  rewrite Hindex. simpl. by rewrite Hnone.
Qed.

(** The call [sub(7, 3)] through the constant 128 of [far_class], bytes
    [b8 00 80]: the constant names [sub], the source looks up the index
    -128, finds nothing and the call is undefined. *)
Lemma invokestatic_index_low_byte_witness :
  find_method_from_index (ClassView := class_view)
    (constant_index 0x00 0x80) far_class = Some sub_method
  ∧ operand16 (snippet [0xb8; 0x00; 0x80]) 0 = Ok (-128)
  ∧ step (CV := class_view) (execute (CV := class_view) 10 far_class)
         (snippet [0xb8; 0x00; 0x80]) far_class (with_operands [7; 3])
    = Fault UndefinedBehaviour.
Proof.
  destruct (invokestatic_index_low_byte (CV := class_view)
              (execute (CV := class_view) 10 far_class)
              (snippet [0xb8; 0x00; 0x80]) far_class (with_operands [7; 3])
              0x00 0x80 eq_refl eq_refl eq_refl ltac:(lia))
    as (Hindex & _ & Hstep).
  split; [reflexivity|]. split; [exact Hindex | apply Hstep; reflexivity].
Defined.

(** ** Returns and the driver *)

Section Returns.
Context `{CV : ClassView}.
Variables (execute : execute_t) (method : method_t) (class : class_file_t).
Variables (s : state).

(** [ireturn] and [areturn] return the top of the stack as a value. *)
Lemma value_return_step i x :
  i = i_ireturn ∨ i = i_areturn →
  fetch method (pc s) = Ok (opcode i) →
  load (operand_stack s) (stack_idx s - 1) = Ok x →
  step execute method class s
  = Ok (Return {| has_value := true; value := x |} (heap s) (stdout s)).
Proof.
  intros Hi Hf Htop. revert Htop. open_case s Hf. intros Htop.
  destruct Hi as [-> | ->]; simpl; by rewrite Htop.
Qed.

(** [return] returns void. *)
Lemma void_return_step :
  fetch method (pc s) = Ok (opcode i_return) →
  step execute method class s
  = Ok (Return {| has_value := false; value := 0 |} (heap s) (stdout s)).
Proof. intros Hf. by open_case s Hf. Qed.

End Returns.

(** A turn of the loop that returns ends [execute] with what it
    returns. *)
Lemma run_Return `{CV : ClassView} fuel method class s ret heap' out' :
  pc s < code_length (code_attribute method) →
  step (execute fuel class) method class s = Ok (Return ret heap' out') →
  run (S fuel) method class s = Ok (ret, heap', out').
Proof.
  intros Hpc Hstep. rewrite run_S, (proj2 (Z.ltb_lt _ _) Hpc), Hstep. done.
Qed.

(** C10. After [main] has run, the driver asserts that what it returned
    is void: when [execute] returns a value for [main], as [ireturn] and
    [areturn] make it, the process aborts on the failed assertion
    [main() should return void]; it exits with status 0 when [execute]
    returns void. The class file has been opened and closed by then
    ([fclose] returned 0). *)
Theorem main_asserts_void `{CV : ClassView} fuel class main_method ret heap' out :
  find_method MAIN_METHOD MAIN_DESCRIPTOR class = Some main_method →
  execute fuel class main_method
          (replicate (Z.to_nat (max_locals (code_attribute main_method))) 0)
          heap_init []
  = Ok (ret, heap', out) →
  main fuel 2 (Some class) 0
  = if has_value ret
    then Fault (AssertionFailure "main() should return void")
    else Ok (0, out).
Proof.
  intros Hfind Hexec. unfold main. simpl. rewrite Hfind, Hexec. simpl.
  by destruct (has_value ret).
Qed.

(** A [main] that is [iconst_0; ireturn]. *)
Lemma main_asserts_void_witness :
  main (CV := class_view) 10 2 (Some main_returns_int) 0
  = Fault (AssertionFailure "main() should return void").
Proof.
  exact (main_asserts_void (CV := class_view) 10 main_returns_int
           (method_of MAIN_METHOD MAIN_DESCRIPTOR 1 1 [0x03; 0xac])
           {| has_value := true; value := 0 |} heap_init []
           eq_refl eq_refl).
Defined.

(** ** Invariants of the loop *)

Section Invariants.
Context `{CV : ClassView}.

Lemma bind_Ok {A B} (m : result A) (k : A → result B) b :
  m ≫= k = Ok b → ∃ a, m = Ok a ∧ k a = Ok b.
Proof. destruct m as [a|]; [by exists a | done]. Qed.

Lemma store_inv {A} (a : list A) i x a' :
  store a i x = Ok a' → 0 ≤ i < Z.of_nat (length a) ∧ a' = <[Z.to_nat i := x]> a.
Proof.
  intros Hs. destruct (decide (0 ≤ i < Z.of_nat (length a))) as [Hi|Hi].
  - rewrite store_Ok in Hs by done. by injection Hs as <-.
  - by rewrite store_out_of_range in Hs.
Qed.

Lemma pop_params_inv n (stack : list Z) idx (callee_locals : list Z) idx' locals' :
  pop_params n stack idx callee_locals = Ok (idx', locals') →
  idx' = idx - Z.of_nat n ∧ (n = 0%nat ∨ 0 ≤ idx').
Proof.
  revert idx callee_locals. induction n as [|n IH]; intros idx callee_locals Hpop.
  { injection Hpop as <- <-. split; [lia | by left]. }
  simpl in Hpop. apply bind_Ok in Hpop as (x & Hx%load_length & Hpop).
  apply bind_Ok in Hpop as (locals1 & _ & Hpop).
  apply IH in Hpop as [-> Hn]. split; [lia|]. right. lia.
Qed.

End Invariants.

(** Takes a successful turn of the loop apart into its reads and writes. *)
Ltac invert_step H :=
  repeat first
    [ apply bind_Ok in H as (? & ? & H)
    | match type of H with
      | (let '(_, _) := ?p in _) = _ => destruct p eqn:?
      | match ?x with _ => _ end = _ => destruct x eqn:?; try discriminate H
      end ].

(** [stack_idx] stays within the operand stack, whose size never changes:
    from [entry] on, [0 <= stack_idx <= max_stack] in every turn of the
    loop, so that the [int32_t] arithmetic on [stack_idx] never wraps. *)
Lemma step_stack_bounds `{CV : ClassView} execute method class s s' :
  0 ≤ stack_idx s ≤ Z.of_nat (length (operand_stack s)) →
  step execute method class s = Ok (Continue s') →
  length (operand_stack s') = length (operand_stack s)
  ∧ 0 ≤ stack_idx s' ≤ Z.of_nat (length (operand_stack s')).
Proof.
  destruct s as [pc stk idx loc hp out]. simpl. intros Hidx Hstep.
  unfold step in Hstep. apply bind_Ok in Hstep as (byte & _ & Hstep).
  destruct (decode byte) as [i|]; [|by injection Hstep as <-].
  destruct i; simpl in Hstep; invert_step Hstep;
    try discriminate Hstep; try (injection Hstep as <-); simpl;
    repeat match goal with
    | H : load _ _ = Ok _ |- _ => apply load_length in H
    | H : store _ _ _ = Ok _ |- _ => apply store_inv in H as [? ->]
    | H : pop_params _ _ _ _ = Ok _ |- _ => apply pop_params_inv in H as [-> ?]
    | H : branch _ _ _ = Ok _ |- _ => clear H
    end; rewrite ?length_insert; lia.
Qed.

(** A turn of the loop returns only in the cases [i_return], [i_ireturn]
    and [i_areturn], and a value, the top of the stack, only in the last
    two. *)
Lemma step_Return_opcode `{CV : ClassView} execute method class s ret heap' out' :
  step execute method class s = Ok (Return ret heap' out') →
  heap' = heap s ∧ out' = stdout s
  ∧ ∃ i, fetch method (pc s) = Ok (opcode i)
         ∧ (i = i_return ∧ has_value ret = false
            ∨ (i = i_ireturn ∨ i = i_areturn) ∧ has_value ret = true
              ∧ load (operand_stack s) (stack_idx s - 1) = Ok (value ret)).
Proof.
  destruct s as [pc stk idx loc hp out]. simpl. intros Hstep.
  unfold step in Hstep. apply bind_Ok in Hstep as (byte & Hf & Hstep).
  destruct (decode byte) as [i|] eqn:Hd; [|discriminate Hstep].
  apply decode_Some in Hd as <-.
  destruct i; simpl in Hstep; invert_step Hstep;
    try discriminate Hstep; injection Hstep as <- <- <-;
    (split; [done|]); (split; [done|]); eexists; (split; [exact Hf|]); auto.
Qed.

(** ** The bound on the loop *)

Section Fuel.
Context `{CV : ClassView}.

Lemma step_extends execute1 execute2 method class s r :
  extends execute1 execute2 →
  step execute1 method class s = r → r ≠ Fault OutOfFuel →
  step execute2 method class s = r.
Proof.
  intros Hext <- Hr. destruct s as [pc stk idx loc hp out].
  unfold step in *. destruct (fetch method pc) as [byte|]; [|done]. simpl in *.
  destruct (decode byte) as [i|]; [|done].
  destruct i; try reflexivity. simpl in *.
  destruct (operand16 method pc) as [index|]; simpl in *; [|done].
  destruct (find_method_from_index index class) as [callee|]; simpl in *; [|done].
  destruct (pop_params _ stk idx _) as [[idx' locals']|]; simpl in *; [|done].
  destruct (execute1 callee locals' hp out) as [[[ret heap'] out']|f] eqn:Hcall.
  - by rewrite (Hext _ _ _ _ _ Hcall).
  - simpl in Hr.
    rewrite (Hext _ _ _ _ _ Hcall) by (intros [= ->]; by apply Hr).
    reflexivity.
Qed.

(** What [execute] yields within a bound, a return or a fault of the
    program, it yields within every larger bound: the bound has no part
    in the result. *)
Lemma run_more_fuel fuel fuel' method class s r :
  run fuel method class s = r → r ≠ Fault OutOfFuel → (fuel ≤ fuel')%nat →
  run fuel' method class s = r.
Proof.
  revert fuel' method s r.
  induction fuel as [|fuel IH]; intros fuel' method s r Hrun Hr Hle.
  { by subst r. }
  destruct fuel' as [|fuel']; [lia|]. rewrite run_S in *.
  destruct (pc s <? code_length (code_attribute method)); [|done].
  assert (extends (execute fuel class) (execute fuel' class)) as Hext.
  { intros callee locals heap out r' Hcall Hr'. apply (IH fuel'); [done|done|lia]. }
  destruct (step (execute fuel class) method class s)
    as [[s1|ret heap1 out1]|f] eqn:Hstep; simpl in Hrun.
  - rewrite (step_extends _ _ _ _ _ _ Hext Hstep) by done. simpl.
    apply (IH fuel'); [done|done|lia].
  - by rewrite (step_extends _ _ _ _ _ _ Hext Hstep).
  - subst r. simpl in Hr.
    rewrite (step_extends _ _ _ _ _ _ Hext Hstep) by (intros [= ->]; by apply Hr).
    reflexivity.
Qed.

End Fuel.

(** ** The scenarios of the specification *)

Example scenario_1_prints :
  main (CV := class_view) 10 2 (Some scenario_1) 0 = Ok (0, [7]).
Proof. reflexivity. Qed.

Example scenario_2_prints :
  main (CV := class_view) 100 2 (Some scenario_2) 0 = Ok (0, [15]).
Proof. reflexivity. Qed.

Example scenario_3_prints :
  main (CV := class_view) 20 2 (Some scenario_3) 0 = Ok (0, [42]).
Proof. reflexivity. Qed.

Example scenario_4_prints :
  main (CV := class_view) 20 2 (Some scenario_4) 0 = Ok (0, [2; 1]).
Proof. reflexivity. Qed.

Example scenario_5_prints :
  main (CV := class_view) 100 2 (Some scenario_5) 0 = Ok (0, [720]).
Proof. reflexivity. Qed.

Example scenario_6_prints :
  main (CV := class_view) 10 2 (Some scenario_6) 0 = Ok (0, [2147483647]).
Proof. reflexivity. Qed.

(** The length of an array of three elements reads 42 after the write
    through the index -1. *)
Example length_overwritten_prints :
  main (CV := class_view) 20 2 (Some length_overwritten) 0 = Ok (0, [42]).
Proof. reflexivity. Qed.

(** The command line must name one class file, which must open, close
    and hold a [main]. *)
Example main_usage :
  main (CV := class_view) 10 1 None 0 = Ok (1, [])
  ∧ main (CV := class_view) 10 2 None 0
    = Fault (AssertionFailure "Failed to open file")
  ∧ main (CV := class_view) 10 2 (Some scenario_1) (-1)
    = Fault (AssertionFailure "Failed to close file")
  ∧ main (CV := class_view) 10 2 (Some no_class) 0
    = Fault (AssertionFailure "Missing main() method").
Proof. repeat split. Qed.

(** * Further properties of the cases *)

(** ** Operand bytes and constants *)

Lemma int8_t_byte b : 0 ≤ b < 256 → int8_t b = sign_extend 8 b.
Proof.
  intros Hb. unfold int8_t, signed, sign_extend.
  change (2 ^ (8 - 1)) with 128. change (2 ^ 8) with 256.
  destruct (Z.ltb_spec b 128).
  - rewrite Z.mod_small; lia.
  - replace (b + 128) with (b - 128 + 1 * 256) by lia.
    rewrite Z_mod_plus_full, Z.mod_small; lia.
Qed.

Lemma sign_extend_8_range b : 0 ≤ b < 256 → -128 ≤ sign_extend 8 b ≤ 127.
Proof.
  intros Hb. unfold sign_extend.
  change (2 ^ (8 - 1)) with 128. change (2 ^ 8) with 256.
  destruct (Z.ltb_spec b 128); lia.
Qed.

Lemma int16_t_bytes b1 b2 :
  0 ≤ b1 < 256 → 0 ≤ b2 < 256 →
  int16_t (Z.lor (Z.shiftl b1 8) b2) = sign_extend 16 (256 * b1 + b2).
Proof.
  intros Hb1 Hb2.
  assert (forallb (λ b1, forallb (λ b2,
            int16_t (Z.lor (Z.shiftl b1 8) b2) =? sign_extend 16 (256 * b1 + b2))
            (seqZ 0 256)) (seqZ 0 256) = true) as Hall by (vm_compute; reflexivity).
  rewrite forallb_forall in Hall.
  assert (In b1 (seqZ 0 256)) as Hin1 by (apply list_elem_of_In, elem_of_seqZ; lia).
  assert (In b2 (seqZ 0 256)) as Hin2 by (apply list_elem_of_In, elem_of_seqZ; lia).
  specialize (Hall b1 Hin1). rewrite forallb_forall in Hall.
  by apply Z.eqb_eq, Hall.
Qed.

(** X1. [bipush b] pushes the operand byte read as a signed 8-bit value,
    between -128 and 127 ([0x80] is -128, [0xff] is -1), and moves [pc] by
    the two bytes of the instruction. *)
Theorem bipush_sign_extends `{CV : ClassView} execute method class s b :
  fetch method (pc s) = Ok (opcode i_bipush) →
  fetch method (pc s + 1) = Ok b →
  0 ≤ stack_idx s < Z.of_nat (length (operand_stack s)) →
  step execute method class s
  = Ok (Continue (push_result s (sign_extend 8 b) 2))
  ∧ -128 ≤ sign_extend 8 b ≤ 127.
Proof.
  intros Hf Hb Hroom. pose proof (fetch_range _ _ _ Hb) as Hrange.
  pose proof (sign_extend_8_range b Hrange) as Hsigned. split; [|done].
  unfold push_result. revert Hb Hroom. open_case s Hf. intros Hb Hroom.
  rewrite Hb. simpl. rewrite int8_t_byte by done.
  rewrite int32_t_id by (unfold INT32_MIN, INT32_MAX; lia).
  by rewrite store_Ok.
Qed.

(** [bipush 0x80] pushes -128. *)
Lemma bipush_sign_extends_witness :
  step (CV := class_view) no_calls (snippet [0x10; 0x80]) no_class
       (with_operands [])
  = Ok (Continue (push_result (with_operands []) (-128) 2))
  ∧ -128 ≤ sign_extend 8 0x80 ≤ 127.
Proof.
  apply (bipush_sign_extends (CV := class_view) no_calls (snippet [0x10; 0x80])
           no_class (with_operands []) 0x80);
    [reflexivity | reflexivity | simpl; lia].
Defined.

(** X2. [sipush b1 b2] pushes the 16-bit value [256 * b1 + b2], both
    bytes unsigned, read as a signed one ([0xffff] is -1), and moves [pc]
    by three. *)
Theorem sipush_big_endian `{CV : ClassView} execute method class s b1 b2 :
  fetch method (pc s) = Ok (opcode i_sipush) →
  fetch method (pc s + 1) = Ok b1 →
  fetch method (pc s + 2) = Ok b2 →
  0 ≤ stack_idx s < Z.of_nat (length (operand_stack s)) →
  step execute method class s
  = Ok (Continue (push_result s (sign_extend 16 (256 * b1 + b2)) 3)).
Proof.
  intros Hf Hb1 Hb2 Hroom.
  pose proof (fetch_range _ _ _ Hb1). pose proof (fetch_range _ _ _ Hb2).
  unfold push_result. revert Hb1 Hb2 Hroom. open_case s Hf. intros Hb1 Hb2 Hroom.
  rewrite Hb1. simpl. rewrite Hb2. simpl. rewrite int16_t_bytes by done.
  by rewrite store_Ok.
Qed.

(** [sipush 0x00 0x80] pushes 128, where a branch reads the same bytes as
    -128. *)
Lemma sipush_big_endian_witness :
  step (CV := class_view) no_calls (snippet [0x11; 0x00; 0x80]) no_class
       (with_operands [])
  = Ok (Continue (push_result (with_operands []) 128 3)).
Proof.
  apply (sipush_big_endian (CV := class_view) no_calls
           (snippet [0x11; 0x00; 0x80]) no_class (with_operands []) 0x00 0x80);
    [reflexivity | reflexivity | reflexivity | simpl; lia].
Defined.

(** X3. The seven opcodes from [iconst_m1] to [iconst_5] are contiguous
    around [iconst_0]: the opcode byte [iconst_0 + v], for [v] from -1 to
    5, pushes [v]. *)
Theorem iconst_pushes_constant `{CV : ClassView} execute method class s v :
  -1 ≤ v ≤ 5 →
  fetch method (pc s) = Ok (opcode i_iconst_0 + v) →
  0 ≤ stack_idx s < Z.of_nat (length (operand_stack s)) →
  step execute method class s = Ok (Continue (push_result s v 1)).
Proof.
  intros Hv Hf Hroom. unfold push_result. revert Hroom.
  assert (v = -1 ∨ v = 0 ∨ v = 1 ∨ v = 2 ∨ v = 3 ∨ v = 4 ∨ v = 5)
    as [-> | [-> | [-> | [-> | [-> | [-> | ->]]]]]] by lia;
    open_case s Hf; intros Hroom; by rewrite store_Ok.
Qed.

Lemma iconst_pushes_constant_witness :
  step (CV := class_view) no_calls (snippet [0x02]) no_class (with_operands [])
  = Ok (Continue (push_result (with_operands []) (-1) 1)).
Proof.
  apply (iconst_pushes_constant (CV := class_view) no_calls (snippet [0x02])
           no_class (with_operands []) (-1));
    [lia | reflexivity | simpl; lia].
Defined.

(** ** Locals *)

(** X4. [iload n] followed by [istore n] leaves the locals as they were
    and the stack at its height: after the two instructions only [pc],
    which is four bytes on, and the free slot above the stack, which
    holds the value of the local, have changed. *)
Theorem iload_then_istore `{CV : ClassView} execute method class s n x :
  0 ≤ pc s < 2 ^ 32 →
  fetch method (pc s) = Ok (opcode i_iload) →
  fetch method (pc s + 1) = Ok n →
  fetch method (pc s + 2) = Ok (opcode i_istore) →
  fetch method (pc s + 3) = Ok n →
  load (locals s) n = Ok x →
  0 ≤ stack_idx s < Z.of_nat (length (operand_stack s)) →
  ∃ s1, step execute method class s = Ok (Continue s1)
    ∧ step execute method class s1
      = Ok (Continue (after s (pc s + 4) (poke (operand_stack s) (stack_idx s) x)
                            (stack_idx s))).
Proof.
  intros Hpc Hf Hn Hf2 Hn2 Hx Hroom.
  exists (push_result s x 2). split.
  - unfold push_result. revert Hn Hx Hroom. open_case s Hf. intros Hn Hx Hroom.
    rewrite Hn. simpl. rewrite Hx. simpl. by rewrite store_Ok.
  - destruct s as [pc stk idx loc hp out]. unfold push_result, after, poke in *.
    simpl in *. rewrite (size_t_id (pc + 2)) by lia.
    unfold step. rewrite Hf2. simpl.
    replace (pc + 2 + 1) with (pc + 3) by lia. rewrite Hn2. simpl.
    replace (idx + 1 - 1) with idx by lia.
    assert (load (<[Z.to_nat idx := x]> stk) idx = Ok x) as ->.
    { destruct (load_in_range stk idx) as [y Hy]; [done|]. by eapply load_insert. }
    simpl. rewrite store_Ok by eauto using load_length. simpl.
    apply load_Ok in Hx as [_ Hx]. rewrite (list_insert_id loc) by done.
    rewrite size_t_id by lia. do 3 f_equal. lia.
Qed.

Lemma iload_then_istore_witness :
  ∃ s1, step (CV := class_view) no_calls (snippet [0x15; 0x02; 0x36; 0x02])
             no_class (with_operands [7]) = Ok (Continue s1)
    ∧ step (CV := class_view) no_calls (snippet [0x15; 0x02; 0x36; 0x02])
           no_class s1
      = Ok (Continue (after (with_operands [7]) (0 + 4)
                            (poke (operand_stack (with_operands [7])) 1 0) 1)).
Proof.
  apply (iload_then_istore (CV := class_view) no_calls
           (snippet [0x15; 0x02; 0x36; 0x02]) no_class (with_operands [7]) 2 0);
    [simpl; lia | reflexivity | reflexivity | reflexivity | reflexivity
    | reflexivity | simpl; lia].
Defined.

(** X5. [dup] followed by [iadd] replaces the top [x] of the stack by
    [2 * x], wrapped to 32 bits, and leaves the stack at its height. *)
Theorem dup_then_iadd `{CV : ClassView} execute method class s x :
  0 ≤ pc s < 2 ^ 32 →
  fetch method (pc s) = Ok (opcode i_dup) →
  fetch method (pc s + 1) = Ok (opcode i_iadd) →
  load (operand_stack s) (stack_idx s - 1) = Ok x →
  stack_idx s < Z.of_nat (length (operand_stack s)) →
  ∃ s1 r, step execute method class s = Ok (Continue s1)
    ∧ wraps_to (2 * x) r
    ∧ step execute method class s1
      = Ok (Continue (after s (pc s + 2)
              (poke (poke (operand_stack s) (stack_idx s) x) (stack_idx s - 1) r)
              (stack_idx s))).
Proof.
  intros Hpc Hf Hf2 Hx Hroom. pose proof (load_length _ _ _ Hx) as Htop.
  exists (push_result s x 1), (int32_t (x + x)). split; [|split].
  - unfold push_result. revert Hx Hroom Htop. open_case s Hf. intros Hx Hroom Htop.
    rewrite Hx. simpl. by rewrite store_Ok by lia.
  - replace (2 * x) with (x + x) by lia. apply int32_t_wraps.
  - destruct s as [pc stk idx loc hp out]. unfold push_result, after, poke in *.
    simpl in *. rewrite (size_t_id (pc + 1)) by lia.
    unfold step. rewrite Hf2. simpl.
    replace (idx + 1 - 1) with idx by lia.
    assert (load (<[Z.to_nat idx := x]> stk) idx = Ok x) as ->.
    { destruct (load_in_range stk idx) as [y Hy]; [lia|]. by eapply load_insert. }
    simpl. rewrite load_insert_ne by lia. rewrite Hx. simpl.
    rewrite store_Ok by (rewrite length_insert; lia). simpl.
    rewrite size_t_id by lia. do 3 f_equal. lia.
Qed.

Lemma dup_then_iadd_witness :
  ∃ s1 r, step (CV := class_view) no_calls (snippet [0x59; 0x60]) no_class
               (with_operands [21]) = Ok (Continue s1)
    ∧ wraps_to (2 * 21) r
    ∧ step (CV := class_view) no_calls (snippet [0x59; 0x60]) no_class s1
      = Ok (Continue (after (with_operands [21]) (0 + 2)
              (poke (poke (operand_stack (with_operands [21])) 1 21) (1 - 1) r)
              1)).
Proof.
  apply (dup_then_iadd (CV := class_view) no_calls (snippet [0x59; 0x60])
           no_class (with_operands [21]) 21);
    [simpl; lia | reflexivity | reflexivity | reflexivity | simpl; lia].
Defined.

(** X6. [iinc n c] adds the byte [c], read as a signed 8-bit value, to
    the local [n], with wrap-around, and touches neither the operand
    stack nor any other local ([c = 0xff] decrements). *)
Theorem iinc_adds_signed_byte `{CV : ClassView} execute method class s n c x :
  fetch method (pc s) = Ok (opcode i_iinc) →
  fetch method (pc s + 1) = Ok n →
  fetch method (pc s + 2) = Ok c →
  load (locals s) n = Ok x →
  ∃ r, wraps_to (x + sign_extend 8 c) r
    ∧ step execute method class s
      = Ok (Continue (State (size_t (pc s + 3)) (operand_stack s) (stack_idx s)
                            (<[Z.to_nat n := r]> (locals s)) (heap s) (stdout s))).
Proof.
  intros Hf Hn Hc Hx. pose proof (fetch_range _ _ _ Hc) as Hrange.
  exists (int32_t (x + sign_extend 8 c)). split; [apply int32_t_wraps|].
  revert Hn Hc Hx. open_case s Hf. intros Hn Hc Hx.
  rewrite Hn. simpl. rewrite Hc. simpl. rewrite Hx. simpl.
  rewrite store_Ok by eauto using load_length. simpl.
  by rewrite int8_t_byte.
Qed.

(** [iinc 1, -1] on a local that holds 0. *)
Lemma iinc_adds_signed_byte_witness :
  ∃ r, wraps_to (0 + sign_extend 8 0xff) r
    ∧ step (CV := class_view) no_calls (snippet [0x84; 0x01; 0xff]) no_class
           (with_operands [])
      = Ok (Continue (State (size_t (0 + 3)) (replicate 4 0) 0
                            (<[Z.to_nat 1 := r]> (replicate 4 0)) heap_init [])).
Proof.
  apply (iinc_adds_signed_byte (CV := class_view) no_calls
           (snippet [0x84; 0x01; 0xff]) no_class (with_operands []) 1 0xff 0);
    reflexivity.
Defined.

(** X7. [ldc index] pushes the integer constant at the position
    [index - 1] of the constant pool, which is numbered from 1; on the
    index 0 the read before the pool is undefined. *)
Theorem ldc_reads_previous_pool_entry `{CV : ClassView} execute method class s
    index :
  fetch method (pc s) = Ok (opcode i_ldc) →
  fetch method (pc s + 1) = Ok index →
  0 ≤ stack_idx s < Z.of_nat (length (operand_stack s)) →
  (∀ v, load (constant_pool class) (index - 1) = Ok (CONSTANT_Integer_info v) →
        step execute method class s = Ok (Continue (push_result s v 2)))
  ∧ (index = 0 → step execute method class s = Fault UndefinedBehaviour).
Proof.
  intros Hf Hindex Hroom. pose proof (fetch_range _ _ _ Hindex) as Hrange.
  assert (int32_t index = index) as Hint.
  { apply int32_t_id. unfold INT32_MIN, INT32_MAX. lia. }
  split.
  - intros v Hv. unfold push_result. revert Hindex Hroom. open_case s Hf.
    intros Hindex Hroom. rewrite Hindex. simpl. rewrite Hint.
    unfold integer_constant. rewrite Hv. simpl. by rewrite store_Ok.
  - intros ->. revert Hindex. open_case s Hf. intros Hindex. rewrite Hindex. done.
Qed.

Lemma ldc_reads_previous_pool_entry_witness :
  step (CV := class_view) no_calls (snippet [0x12; 0x01])
       {| constant_pool := [CONSTANT_Integer_info 100000]; methods := [] |}
       (with_operands [])
  = Ok (Continue (push_result (with_operands []) 100000 2)).
Proof.
  apply (proj1 (ldc_reads_previous_pool_entry (CV := class_view) no_calls
                  (snippet [0x12; 0x01])
                  {| constant_pool := [CONSTANT_Integer_info 100000];
                     methods := [] |}
                  (with_operands []) 1 eq_refl eq_refl
                  ltac:(simpl; lia))).
  reflexivity.
Defined.

(** ** Bitwise operations, shifts and division *)

Lemma is_int32_shiftr x : is_int32 x ↔ Z.shiftr x 31 = 0 ∨ Z.shiftr x 31 = -1.
Proof.
  unfold is_int32, INT32_MIN, INT32_MAX. rewrite Z.shiftr_div_pow2 by lia.
  pose proof (Z.div_mod x (2 ^ 31) ltac:(lia)).
  pose proof (Z.mod_pos_bound x (2 ^ 31) ltac:(lia)). lia.
Qed.

Lemma bitwise_int32 a b :
  is_int32 a → is_int32 b →
  is_int32 (Z.land a b) ∧ is_int32 (Z.lor a b) ∧ is_int32 (Z.lxor a b).
Proof.
  rewrite !is_int32_shiftr, Z.shiftr_land, Z.shiftr_lor, Z.shiftr_lxor.
  intros [-> | ->] [-> | ->]; simpl; auto.
Qed.

(** X8. [iand], [ior] and [ixor] replace the two topmost operands [a] and
    [b] by their bitwise and, or and exclusive or in two's complement, and
    the result of each is a value of [int32_t] whenever [a] and [b] are:
    these cases need no wrap-around. *)
Theorem bitwise_stays_int32 `{CV : ClassView} execute method class s a b :
  is_int32 a → is_int32 b →
  load (operand_stack s) (stack_idx s - 2) = Ok a →
  load (operand_stack s) (stack_idx s - 1) = Ok b →
  (fetch method (pc s) = Ok (opcode i_iand) →
   step execute method class s = Ok (Continue (binary_result s (Z.land a b))))
  ∧ (fetch method (pc s) = Ok (opcode i_ior) →
     step execute method class s = Ok (Continue (binary_result s (Z.lor a b))))
  ∧ (fetch method (pc s) = Ok (opcode i_ixor) →
     step execute method class s = Ok (Continue (binary_result s (Z.lxor a b))))
  ∧ is_int32 (Z.land a b) ∧ is_int32 (Z.lor a b) ∧ is_int32 (Z.lxor a b).
Proof.
  intros Ha Hb Hsecond Htop.
  split; [|split; [|split; [|by apply bitwise_int32]]];
    intros Hf; unfold binary_result; revert Hsecond Htop; open_case s Hf;
    intros Hsecond Htop; read_operand Hsecond; read_operand Htop;
    write_slot Hsecond; done.
Qed.

(** [-1 ^ 5] is [-6]. *)
Lemma bitwise_stays_int32_witness :
  step (CV := class_view) no_calls (snippet [0x82]) no_class
       (with_operands [-1; 5])
  = Ok (Continue (binary_result (with_operands [-1; 5]) (Z.lxor (-1) 5)))
  ∧ is_int32 (Z.lxor (-1) 5).
Proof.
  destruct (bitwise_stays_int32 (CV := class_view) no_calls (snippet [0x82])
              no_class (with_operands [-1; 5]) (-1) 5)
    as (_ & _ & Hxor & _ & _ & Hrange).
  - unfold is_int32, INT32_MIN, INT32_MAX. lia.
  - unfold is_int32, INT32_MIN, INT32_MAX. lia.
  - reflexivity.
  - reflexivity.
  - split; [apply Hxor; reflexivity | exact Hrange].
Defined.

(** X9. A branch that is taken reaches the target of the class-file
    format, its own address plus the signed 16-bit offset, whenever the
    offset lies in [0, 0x7f7f] with a low byte below [0x80], or between
    -128 and -1: the forward jumps and short loops that a compiler
    emits for small methods. *)
Theorem small_branch_reaches_target `{CV : ClassView} execute method class s
    i x y b1 b2 :
  branch_condition i x y = Some true →
  (1 ≤ branch_pops i → load (operand_stack s) (stack_idx s - 1) = Ok y) →
  (2 ≤ branch_pops i → load (operand_stack s) (stack_idx s - 2) = Ok x) →
  fetch method (pc s) = Ok (opcode i) →
  fetch method (pc s + 1) = Ok b1 →
  fetch method (pc s + 2) = Ok b2 →
  b1 < 128 ∧ b2 < 128 ∨ b1 = 255 ∧ 128 ≤ b2 →
  step execute method class s
  = Ok (Continue (after s (size_t (pc s + branch_offset b1 b2))
                        (operand_stack s) (stack_idx s - branch_pops i))).
Proof.
  intros Hcond Htop Hsecond Hf Hb1 Hb2 Hsmall.
  rewrite <- (proj2 (offsets_agree_iff b1 b2 (fetch_range _ _ _ Hb1)
                       (fetch_range _ _ _ Hb2)) Hsmall).
  by eapply branch_taken_step.
Qed.

(** [if_icmplt] on 1 and 2 with the offset bytes [ff f4], that is -12,
    at the address 16. *)
Lemma small_branch_reaches_target_witness :
  step (CV := class_view) no_calls
       (snippet (replicate 16 0x00 ++ [0xa1; 0xff; 0xf4])) no_class
       (State 16 [1; 2] 2 [] heap_init [])
  = Ok (Continue (after (State 16 [1; 2] 2 [] heap_init [])
                        (size_t (16 + branch_offset 0xff 0xf4)) [1; 2] (2 - 2))).
Proof.
  apply (small_branch_reaches_target (CV := class_view) no_calls
           (snippet (replicate 16 0x00 ++ [0xa1; 0xff; 0xf4])) no_class
           (State 16 [1; 2] 2 [] heap_init []) i_if_icmplt 1 2 0xff 0xf4);
    [reflexivity | reflexivity | reflexivity | reflexivity | reflexivity
    | reflexivity | right; lia].
Defined.

(** X10. A conditional branch whose condition fails moves to the next
    instruction, three bytes on, and pops its operands; the offset bytes
    are not read, so that this holds even where the code ends with the
    opcode. *)
Theorem untaken_branch_skips_offset `{CV : ClassView} execute method class s
    i x y :
  branch_condition i x y = Some false →
  (1 ≤ branch_pops i → load (operand_stack s) (stack_idx s - 1) = Ok y) →
  (2 ≤ branch_pops i → load (operand_stack s) (stack_idx s - 2) = Ok x) →
  fetch method (pc s) = Ok (opcode i) →
  step execute method class s
  = Ok (Continue (after s (size_t (pc s + 3))
                        (operand_stack s) (stack_idx s - branch_pops i))).
Proof. intros. by eapply branch_not_taken_step. Qed.

(** [ifeq] on the operand 1, as the last byte of the code. *)
Lemma untaken_branch_skips_offset_witness :
  step (CV := class_view) no_calls (snippet [0x99]) no_class (with_operands [1])
  = Ok (Continue (after (with_operands [1]) (size_t (0 + 3))
                        (operand_stack (with_operands [1])) (1 - 1))).
Proof.
  apply (untaken_branch_skips_offset (CV := class_view) no_calls
           (snippet [0x99]) no_class (with_operands [1]) i_ifeq 0 1);
    [reflexivity | reflexivity | simpl; lia | reflexivity].
Defined.

(** X11. For a count [b] from 0 to 31, which is its own low five bits,
    [ishl] pushes [a * 2^b] wrapped to 32 bits, [ishr] pushes the
    quotient of [a] by [2^b] rounded down, which keeps the sign, and
    [iushr] pushes the quotient of the unsigned value of [a] by [2^b],
    which is not negative when [b] is at least 1. *)
Theorem shifts_within_range `{CV : ClassView} execute method class s a b :
  0 ≤ b < 32 →
  load (operand_stack s) (stack_idx s - 2) = Ok a →
  load (operand_stack s) (stack_idx s - 1) = Ok b →
  Z.land b 31 = b
  ∧ (fetch method (pc s) = Ok (opcode i_ishl) →
     ∃ r, wraps_to (a * 2 ^ b) r
          ∧ step execute method class s = Ok (Continue (binary_result s r)))
  ∧ (fetch method (pc s) = Ok (opcode i_ishr) →
     step execute method class s = Ok (Continue (binary_result s (a / 2 ^ b))))
  ∧ (fetch method (pc s) = Ok (opcode i_iushr) →
     ∃ r, wraps_to (a mod 2 ^ 32 / 2 ^ b) r
          ∧ (1 ≤ b → r = a mod 2 ^ 32 / 2 ^ b ∧ 0 ≤ r)
          ∧ step execute method class s = Ok (Continue (binary_result s r))).
Proof.
  intros Hb Hsecond Htop. split; [by apply count_masked|].
  split; [|split]; intros Hf.
  - exists (int32_t (Z.shiftl a b)). split.
    + rewrite <- Z.shiftl_mul_pow2 by lia. apply int32_t_wraps.
    + by eapply ishl_step.
  - rewrite <- Z.shiftr_div_pow2 by lia. by eapply ishr_step.
  - exists (int32_t (Z.shiftr (uint32_t a) b)). split; [|split].
    + rewrite Z.shiftr_div_pow2 by lia. apply int32_t_wraps.
    + intros Hb1. rewrite Z.shiftr_div_pow2 by lia. unfold uint32_t, unsigned.
      pose proof (Z.mod_pos_bound a (2 ^ 32) ltac:(lia)) as Hmod.
      assert (0 ≤ a mod 2 ^ 32 / 2 ^ b < 2 ^ 31) as Hr.
      { split; [apply Z.div_pos; lia|].
        apply Z.div_lt_upper_bound; [lia|].
        assert (2 ^ 1 ≤ 2 ^ b) by (apply Z.pow_le_mono_r; lia). lia. }
      rewrite int32_t_id by (unfold INT32_MIN, INT32_MAX; lia). lia.
    + by eapply iushr_step.
Qed.

(** [-8 >> 1] is [-4]. *)
Lemma shifts_within_range_witness :
  step (CV := class_view) no_calls (snippet [0x7a]) no_class
       (with_operands [-8; 1])
  = Ok (Continue (binary_result (with_operands [-8; 1]) (-8 / 2 ^ 1))).
Proof.
  destruct (shifts_within_range (CV := class_view) no_calls (snippet [0x7a])
              no_class (with_operands [-8; 1]) (-8) 1)
    as (_ & _ & Hshr & _).
  - lia.
  - reflexivity.
  - reflexivity.
  - apply Hshr. reflexivity.
Defined.

(** X12. [idiv] and [irem] fail the assertion on the divisor exactly when
    the divisor [b] is 0. Otherwise, unless [a] is [INT32_MIN] and [b] is
    -1, they push the quotient [q] and the remainder [r] of the division
    that truncates towards zero: [a = b * q + r] with [|r| < |b|] and [r]
    of the sign of [a], both values of [int32_t]. *)
Theorem division_truncates `{CV : ClassView} execute method class s a b :
  is_int32 a → is_int32 b →
  load (operand_stack s) (stack_idx s - 2) = Ok a →
  load (operand_stack s) (stack_idx s - 1) = Ok b →
  (∀ i, i = i_idiv ∨ i = i_irem → fetch method (pc s) = Ok (opcode i) →
     (step execute method class s = Fault (AssertionFailure divisor_assertion)
      ↔ b = 0))
  ∧ (b ≠ 0 → ¬ (a = INT32_MIN ∧ b = -1) →
     ∃ q r, a = b * q + r ∧ Z.abs r < Z.abs b ∧ 0 ≤ a * r
       ∧ is_int32 q ∧ is_int32 r
       ∧ (fetch method (pc s) = Ok (opcode i_idiv) →
          step execute method class s = Ok (Continue (binary_result s q)))
       ∧ (fetch method (pc s) = Ok (opcode i_irem) →
          step execute method class s = Ok (Continue (binary_result s r)))).
Proof.
  intros Ha Hb Hsecond Htop. split.
  - intros i Hi Hf. by eapply division_by_zero.
  - intros Hb0 Hover. exists (Z.quot a b), (Z.rem a b).
    pose proof (Z.quot_rem' a b) as Hqr.
    pose proof (Z.rem_bound_abs a b Hb0) as Hbound.
    pose proof (Z.rem_sign_mul a b Hb0) as Hsign.
    assert (is_int32 (Z.rem a b)) as Hr.
    { unfold is_int32, INT32_MIN, INT32_MAX in *. lia. }
    assert (is_int32 (Z.quot a b)) as Hq.
    { unfold is_int32, INT32_MIN, INT32_MAX in *.
      set (q := Z.quot a b) in *. set (r := Z.rem a b) in *.
      clearbody q r. clear Hsecond Htop Hr.
      assert (b = -1 ∨ b = 1 ∨ b ≤ -2 ∨ 2 ≤ b) as [-> | [-> | [Hneg | Hpos]]] by lia.
      - assert (r = 0) by lia. lia.
      - assert (r = 0) by lia. lia.
      - assert (Z.abs q ≤ Z.abs a); [|lia].
        destruct (Z.abs_spec q) as [[? ->]|[? ->]],
                 (Z.abs_spec a) as [[? ->]|[? ->]],
                 (Z.abs_spec r) as [[? Hr]|[? Hr]]; rewrite Hr in Hbound; nia.
      - assert (Z.abs q ≤ Z.abs a); [|lia].
        destruct (Z.abs_spec q) as [[? ->]|[? ->]],
                 (Z.abs_spec a) as [[? ->]|[? ->]],
                 (Z.abs_spec r) as [[? Hr]|[? Hr]]; rewrite Hr in Hbound; nia. }
    split; [done|]. split; [done|]. split; [lia|]. split; [done|].
    split; [done|]. split; intros Hf.
    + by eapply idiv_step.
    + by eapply irem_step.
Qed.

(** [-7 / 2] is [-3] and [-7 % 2] is [-1]. *)
Lemma division_truncates_witness :
  ∃ q r, -7 = 2 * q + r ∧ Z.abs r < Z.abs 2 ∧ 0 ≤ -7 * r
    ∧ step (CV := class_view) no_calls (snippet [0x6c]) no_class
           (with_operands [-7; 2])
      = Ok (Continue (binary_result (with_operands [-7; 2]) q)).
Proof.
  destruct (division_truncates (CV := class_view) no_calls (snippet [0x6c])
              no_class (with_operands [-7; 2]) (-7) 2) as [_ Hdiv].
  - unfold is_int32, INT32_MIN, INT32_MAX. lia.
  - unfold is_int32, INT32_MIN, INT32_MAX. lia.
  - reflexivity.
  - reflexivity.
  - destruct Hdiv as (q & r & Hqr & Hbound & Hsign & _ & _ & Hidiv & _).
    + lia.
    + lia.
    + exists q, r. repeat split; try assumption. apply Hidiv. reflexivity.
Defined.

(** X13. [newarray] does not check the length: on a negative length no
    buffer with a length slot is allocated, and the write of that slot is
    undefined. *)
Theorem newarray_negative_length `{CV : ClassView} execute method class s n :
  INT32_MIN ≤ n < 0 →
  fetch method (pc s) = Ok (opcode i_newarray) →
  load (operand_stack s) (stack_idx s - 1) = Ok n →
  step execute method class s = Fault UndefinedBehaviour.
Proof.
  unfold INT32_MIN. intros Hn Hf Htop. revert Htop. open_case s Hf. intros Htop.
  rewrite Htop. simpl.
  assert (calloc 4 (int32_t (n + 1)) = []) as ->; [|done].
  rewrite int32_t_id by (unfold INT32_MIN, INT32_MAX; lia).
  unfold calloc, size_t, unsigned. rewrite (Z.mod_small 4) by lia.
  destruct (decide (n = -1)) as [->|Hn1]; [done|].
  replace ((n + 1) mod 2 ^ 64) with (n + 1 + 2 ^ 64).
  - rewrite (proj2 (Z.ltb_ge _ _)); [done | lia].
  - apply Z.mod_unique with (-1); lia.
Qed.

Lemma newarray_negative_length_witness :
  step (CV := class_view) no_calls (snippet [0xbc; 0x0a]) no_class
       (with_operands [-5])
  = Fault UndefinedBehaviour.
Proof.
  apply (newarray_negative_length (CV := class_view) no_calls
           (snippet [0xbc; 0x0a]) no_class (with_operands [-5]) (-5));
    [unfold INT32_MIN; lia | reflexivity | reflexivity].
Defined.

(** * Further properties of the loop *)

(** ** The faults of [execute] *)

Section Faults.
Context {A : Type} (P : fault → Prop).
Hypothesis undefined : P UndefinedBehaviour.

Lemma faults_in_Ok (a : A) : faults_in P (Ok a).
Proof. by intros f. Qed.

Lemma faults_in_Fault f : P f → faults_in P (@Fault A f).
Proof. by intros Hf f' [= <-]. Qed.

Lemma faults_in_bind {B} (m : result B) (k : B → result A) :
  faults_in P m → (∀ b, faults_in P (k b)) → faults_in P (m ≫= k).
Proof.
  intros Hm Hk f. destruct m as [b|f']; simpl; [apply Hk|].
  intros [= <-]. by apply Hm.
Qed.

Lemma load_faults (a : list A) i : faults_in P (load a i).
Proof. intros f Hf. by rewrite (load_Fault _ _ _ Hf). Qed.

Lemma store_faults (a : list A) i x : faults_in P (store a i x).
Proof. intros f Hf. by rewrite (store_Fault _ _ _ _ Hf). Qed.

End Faults.

Section OperationFaults.
Context (P : fault → Prop).
Hypothesis undefined : P UndefinedBehaviour.

Lemma fetch_faults method i : faults_in P (fetch method i).
Proof.
  unfold fetch. apply faults_in_bind; [by apply load_faults|].
  intros b. apply faults_in_Ok.
Qed.

Lemma operand16_faults method pc : faults_in P (operand16 method pc).
Proof.
  unfold operand16. apply faults_in_bind; [by apply fetch_faults|]. intros b1.
  apply faults_in_bind; [by apply fetch_faults|]. intros b2. apply faults_in_Ok.
Qed.

Lemma branch_faults method pc cond : faults_in P (branch method pc cond).
Proof.
  unfold branch. destruct cond; [|apply faults_in_Ok].
  apply faults_in_bind; [by apply operand16_faults|]. intros b. apply faults_in_Ok.
Qed.

Lemma integer_constant_faults class i : faults_in P (integer_constant class i).
Proof.
  unfold integer_constant. apply faults_in_bind; [by apply load_faults|].
  intros []; (apply faults_in_Ok || by apply faults_in_Fault).
Qed.

Lemma c_div_faults x y : faults_in P (c_div x y).
Proof.
  unfold c_div. destruct (_ || _); [by apply faults_in_Fault | apply faults_in_Ok].
Qed.

Lemma c_rem_faults x y : faults_in P (c_rem x y).
Proof.
  unfold c_rem. destruct (_ || _); [by apply faults_in_Fault | apply faults_in_Ok].
Qed.

Lemma c_shl_faults x y : faults_in P (c_shl x y).
Proof.
  unfold c_shl. destruct (_ && _); [apply faults_in_Ok | by apply faults_in_Fault].
Qed.

Lemma c_shr_faults x y : faults_in P (c_shr x y).
Proof.
  unfold c_shr. destruct (_ && _); [apply faults_in_Ok | by apply faults_in_Fault].
Qed.

Lemma c_shru_faults x y : faults_in P (c_shru x y).
Proof.
  unfold c_shru. destruct (_ && _); [apply faults_in_Ok | by apply faults_in_Fault].
Qed.

Lemma heap_set_faults heap ref i x : faults_in P (heap_set heap ref i x).
Proof.
  unfold heap_set, heap_get. apply faults_in_bind; [by apply load_faults|].
  intros array. apply faults_in_bind; [by apply store_faults|].
  intros array'. by apply store_faults.
Qed.

Lemma pop_params_faults n stack idx callee_locals :
  faults_in P (pop_params n stack idx callee_locals).
Proof.
  revert idx callee_locals. induction n as [|n IH]; intros idx callee_locals; simpl.
  - apply faults_in_Ok.
  - apply faults_in_bind; [by apply load_faults|]. intros x.
    apply faults_in_bind; [by apply store_faults|]. intros l. apply IH.
Qed.

Lemma clear_from_faults count array i : faults_in P (clear_from count array i).
Proof.
  revert array i. induction count as [|count IH]; intros array i; simpl.
  - apply faults_in_Ok.
  - apply faults_in_bind; [by apply store_faults|]. intros l. apply IH.
Qed.

Lemma assert_faults cond :
  P (AssertionFailure divisor_assertion) →
  faults_in P (assert cond divisor_assertion).
Proof. intros HP. destruct cond; [apply faults_in_Ok | by apply faults_in_Fault]. Qed.

End OperationFaults.

(** Bounds the faults of a case of [step] by those of its operations. *)
Ltac faults :=
  repeat first
    [ apply faults_in_Ok
    | apply faults_in_bind; [|intros ?]
    | apply load_faults | apply store_faults | apply fetch_faults
    | apply operand16_faults | apply branch_faults | apply integer_constant_faults
    | apply heap_set_faults | apply pop_params_faults | apply clear_from_faults
    | apply assert_faults
    | apply c_div_faults | apply c_rem_faults | apply c_shl_faults
    | apply c_shr_faults | apply c_shru_faults
    | apply faults_in_Fault
    | match goal with
      | |- faults_in _ (match ?x with _ => _ end) => destruct x
      | |- faults_in _ (let '(_, _) := ?x in _) => destruct x
      end
    | done ].

Lemma step_faults `{CV : ClassView} (P : fault → Prop) execute method class s :
  P UndefinedBehaviour → P (AssertionFailure divisor_assertion) →
  (∀ callee locals heap out, faults_in P (execute callee locals heap out)) →
  faults_in P (step execute method class s).
Proof.
  intros Hub Hassert Hexec. destruct s as [pc stk idx loc hp out]. unfold step.
  apply faults_in_bind; [by apply fetch_faults|]. intros byte.
  destruct (decode byte) as [i|]; [|apply faults_in_Ok].
  destruct i; unfold heap_get; faults.
Qed.

Lemma run_faults `{CV : ClassView} fuel method class s :
  faults_in (λ f, f = UndefinedBehaviour ∨ f = OutOfFuel
                  ∨ f = AssertionFailure divisor_assertion)
            (run fuel method class s).
Proof.
  revert method s. induction fuel as [|fuel IH]; intros method s.
  { intros f [= <-]. auto. }
  rewrite run_S. destruct (pc s <? _); [|apply faults_in_Ok].
  apply faults_in_bind.
  - apply step_faults; auto. intros callee locals heap out. apply IH.
  - intros [s'|ret heap' out']; [apply IH | apply faults_in_Ok].
Qed.

(** X14. The only assertion that [execute] can fail, in the method or in
    any method it calls, is the one on the divisor of [idiv] and [irem]:
    an unknown opcode, an operand stack or a local out of bounds, a
    reference that is none and a method that is not found never abort
    with a diagnostic; where they fault, the behaviour is undefined. *)
Theorem execute_faults `{CV : ClassView} fuel class method locals heap out f :
  execute fuel class method locals heap out = Fault f →
  f = UndefinedBehaviour ∨ f = OutOfFuel
  ∨ f = AssertionFailure divisor_assertion.
Proof. apply run_faults. Qed.

(** [iconst_1; iconst_0; idiv] fails the assertion. *)
Lemma execute_faults_witness :
  AssertionFailure divisor_assertion = UndefinedBehaviour
  ∨ AssertionFailure divisor_assertion = OutOfFuel
  ∨ AssertionFailure divisor_assertion = AssertionFailure divisor_assertion.
Proof.
  exact (execute_faults (CV := class_view) 10 no_class
           (snippet [0x04; 0x03; 0x6c]) (replicate 4 0) heap_init []
           (AssertionFailure divisor_assertion) eq_refl).
Defined.

(** ** Bounds that are not checked *)

Lemma load_negative {A} (a : list A) i : i < 0 → load a i = Fault UndefinedBehaviour.
Proof. intros Hi. unfold load. by rewrite (proj2 (Z.leb_gt 0 i)). Qed.

(** Settles a case of [step] that cannot succeed, [lia] showing why. *)
Ltac faults_undefined :=
  match goal with
  | |- ?m = Fault UndefinedBehaviour =>
      let Hm := fresh "Hm" in
      destruct m as [?|f] eqn:Hm;
      [ exfalso; invert_step Hm;
        repeat match goal with
        | H : load _ _ = Ok _ |- _ => apply load_length in H
        | H : store _ _ _ = Ok _ |- _ => apply store_inv in H as [? _]
        end; first [discriminate Hm | lia]
      | f_equal; revert f Hm;
        change (faults_in (λ f, f = UndefinedBehaviour) m); faults ]
  end.

(** X15. The operand stack is not checked: a case that writes
    [operand_stack[stack_idx]] when the stack is full, and a case that
    reads [operand_stack[stack_idx - 1]] when it is empty, is undefined
    behaviour, not an abort. *)
Theorem stack_bounds_unchecked `{CV : ClassView} execute method class s i :
  fetch method (pc s) = Ok (opcode i) →
  pushes i = true ∧ stack_idx s = Z.of_nat (length (operand_stack s))
  ∨ pops i = true ∧ stack_idx s = 0 →
  step execute method class s = Fault UndefinedBehaviour.
Proof.
  intros Hf Hcase. revert Hcase. open_case s Hf.
  intros [[Hi ->] | [Hi ->]]; destruct i; try discriminate Hi; simpl;
    rewrite ?load_negative by lia; simpl; try reflexivity;
    faults_undefined.
Qed.

(** [iadd] on an empty operand stack. *)
Lemma stack_bounds_unchecked_witness :
  step (CV := class_view) no_calls (snippet [0x60]) no_class (with_operands [])
  = Fault UndefinedBehaviour.
Proof.
  apply (stack_bounds_unchecked (CV := class_view) no_calls (snippet [0x60])
           no_class (with_operands []) i_iadd);
    [reflexivity | right; split; reflexivity].
Defined.

(** X16. The index of a local is not checked: [iload], [aload], [istore],
    [astore] and [iinc] with an index byte beyond the locals are
    undefined behaviour, not an abort. *)
Theorem local_bounds_unchecked `{CV : ClassView} execute method class s i n :
  indexes_local i = true →
  fetch method (pc s) = Ok (opcode i) →
  fetch method (pc s + 1) = Ok n →
  Z.of_nat (length (locals s)) ≤ n →
  step execute method class s = Fault UndefinedBehaviour.
Proof.
  intros Hi Hf Hn Hlen. revert Hn Hlen. open_case s Hf. intros Hn Hlen.
  destruct i; try discriminate Hi; simpl; rewrite Hn; simpl; faults_undefined.
Qed.

(** [iload 9] in a frame of four locals. *)
Lemma local_bounds_unchecked_witness :
  step (CV := class_view) no_calls (snippet [0x15; 0x09]) no_class
       (with_operands [])
  = Fault UndefinedBehaviour.
Proof.
  apply (local_bounds_unchecked (CV := class_view) no_calls
           (snippet [0x15; 0x09]) no_class (with_operands []) i_iload 9);
    [reflexivity | reflexivity | reflexivity | simpl; lia].
Defined.

(** ** What the loop keeps *)

(** X17. A turn of the loop keeps the shape of the frame: the operand
    stack and the locals keep their sizes, and [stack_idx] stays between
    0 and the size of the operand stack. *)
Theorem step_keeps_frame_shape `{CV : ClassView} execute method class s s' :
  0 ≤ stack_idx s ≤ Z.of_nat (length (operand_stack s)) →
  step execute method class s = Ok (Continue s') →
  length (operand_stack s') = length (operand_stack s)
  ∧ length (locals s') = length (locals s)
  ∧ 0 ≤ stack_idx s' ≤ Z.of_nat (length (operand_stack s')).
Proof.
  intros Hidx Hstep.
  destruct (step_stack_bounds _ _ _ _ _ Hidx Hstep) as [Hlen Hidx'].
  split; [done|]. split; [|done]. clear Hidx Hlen Hidx'.
  destruct s as [pc stk idx loc hp out]. simpl.
  unfold step in Hstep. apply bind_Ok in Hstep as (byte & _ & Hstep).
  destruct (decode byte) as [i|]; [|by injection Hstep as <-].
  destruct i; simpl in Hstep; invert_step Hstep;
    try discriminate Hstep; try (injection Hstep as <-); simpl;
    repeat match goal with
    | H : store _ _ _ = Ok _ |- _ => apply store_inv in H as [? ->]
    end; by rewrite ?length_insert.
Qed.

(** [istore_1] pops into a local. *)
Lemma step_keeps_frame_shape_witness :
  length (operand_stack (State 1 [7; 0; 0; 0] 0 [0; 7; 0; 0] heap_init []))
  = length (operand_stack (with_operands [7]))
  ∧ length (locals (State 1 [7; 0; 0; 0] 0 [0; 7; 0; 0] heap_init []))
    = length (locals (with_operands [7]))
  ∧ 0 ≤ stack_idx (State 1 [7; 0; 0; 0] 0 [0; 7; 0; 0] heap_init [])
      ≤ Z.of_nat (length (operand_stack
                            (State 1 [7; 0; 0; 0] 0 [0; 7; 0; 0] heap_init []))).
Proof.
  apply (step_keeps_frame_shape (CV := class_view) no_calls (snippet [0x3c])
           no_class (with_operands [7])
           (State 1 [7; 0; 0; 0] 0 [0; 7; 0; 0] heap_init []));
    [simpl; lia | reflexivity].
Defined.

Section Growth.
Context `{CV : ClassView}.

Lemma heap_grows_refl heap : heap_grows heap heap.
Proof. intros ref array Hget. by exists array. Qed.

Lemma heap_grows_trans heap1 heap2 heap3 :
  heap_grows heap1 heap2 → heap_grows heap2 heap3 → heap_grows heap1 heap3.
Proof.
  intros H12 H23 ref array Hget.
  destruct (H12 _ _ Hget) as (array2 & Hget2 & Hlen2).
  destruct (H23 _ _ Hget2) as (array3 & Hget3 & Hlen3).
  exists array3. split; [done | congruence].
Qed.

Lemma heap_grows_add heap array : heap_grows heap (heap_add heap array).1.
Proof.
  intros ref old Hget. exists old. split; [|done].
  destruct (decide (ref = Z.of_nat (length heap))) as [->|Hne].
  - apply load_length in Hget. lia.
  - by rewrite (heap_get_add_old heap array _ (Z.of_nat (length heap))).
Qed.

Lemma heap_grows_set heap ref i x heap' :
  heap_set heap ref i x = Ok heap' → heap_grows heap heap'.
Proof.
  intros (array & y & Hget & Hy & ->)%heap_set_inv ref' old Hold.
  unfold heap_get in *. destruct (decide (ref' = ref)) as [->|Hne].
  - exists (<[Z.to_nat i := x]> array). split; [by eapply load_insert|].
    rewrite length_insert. congruence.
  - exists old. split; [|done]. rewrite load_insert_ne; [done| |done].
    apply load_length in Hget. lia.
Qed.

Lemma step_grows execute method class s r :
  (∀ callee locals heap out ret heap' out',
     execute callee locals heap out = Ok (ret, heap', out') →
     grows heap out heap' out') →
  step execute method class s = Ok r →
  match r with
  | Continue s' => grows (heap s) (stdout s) (heap s') (stdout s')
  | Return _ heap' out' => grows (heap s) (stdout s) heap' out'
  end.
Proof.
  intros Hexec Hstep. destruct s as [pc stk idx loc hp out]. simpl.
  unfold step in Hstep. apply bind_Ok in Hstep as (byte & _ & Hstep).
  destruct (decode byte) as [i|];
    [|injection Hstep as <-; split; [apply heap_grows_refl | done]].
  destruct i; simpl in Hstep; invert_step Hstep;
    try discriminate Hstep; injection Hstep as <-; simpl;
    try (split; [apply heap_grows_refl | done]).
  - split; [by eapply heap_grows_set | done].
  - split; [apply heap_grows_refl | by apply prefix_app_r].
  - by eapply Hexec.
  - by eapply Hexec.
  - split; [apply (heap_grows_add hp) | done].
Qed.

Lemma run_grows fuel method class s ret heap' out' :
  run fuel method class s = Ok (ret, heap', out') →
  grows (heap s) (stdout s) heap' out'.
Proof.
  revert method s ret heap' out'.
  induction fuel as [|fuel IH]; intros method s ret heap' out' Hrun; [done|].
  rewrite run_S in Hrun. destruct (pc s <? _).
  - apply bind_Ok in Hrun as (r & Hstep & Hrun).
    apply step_grows in Hstep.
    + destruct r as [s1|ret1 heap1 out1].
      * apply IH in Hrun. destruct Hstep as [Hh Ho], Hrun as [Hh' Ho'].
        split; [by eapply heap_grows_trans | by etrans].
      * by injection Hrun as <- <- <-.
    + intros callee locals heap out ret0 heap0 out0 Hcall.
      by apply (IH callee (entry callee locals heap out) ret0).
  - injection Hrun as <- <- <-. split; [apply heap_grows_refl | done].
Qed.

End Growth.

(** X18. A method that returns, whatever it ran and called, has kept
    every reference of the heap valid, to a buffer of the size it had,
    and has only added lines to the output: nothing is freed, moved,
    resized or unprinted. *)
Theorem execute_only_grows `{CV : ClassView} fuel class method locals heap out
    ret heap' out' :
  execute fuel class method locals heap out = Ok (ret, heap', out') →
  (∀ ref array, heap_get heap ref = Ok array →
     ∃ array', heap_get heap' ref = Ok array' ∧ length array' = length array)
  ∧ ∃ printed, out' = out ++ printed.
Proof. intros Hrun. by apply run_grows in Hrun. Qed.

(** The third scenario of the specification, run after a first array and
    a first line. *)
Lemma execute_only_grows_witness :
  (∀ ref array, heap_get [[1; 5]] ref = Ok array →
     ∃ array', heap_get [[1; 5]; 10 :: 42 :: replicate 9 0] ref = Ok array'
               ∧ length array' = length array)
  ∧ ∃ printed, [3; 42] = [3] ++ printed.
Proof.
  exact (execute_only_grows (CV := class_view) 20 scenario_3
           (method_of MAIN_METHOD MAIN_DESCRIPTOR 4 1
              [0x10; 0x0a; 0xbc; 0x0a; 0x59; 0x03; 0x10; 0x2a; 0x4f; 0x03; 0x2e;
               0xb6; 0x00; 0x00; 0xb1])
           [0] [[1; 5]] [3] {| has_value := false; value := 0 |}
           [[1; 5]; 10 :: 42 :: replicate 9 0] [3; 42] eq_refl).
Defined.

(** ** Returns and the driver *)

Section Turns.
Context `{CV : ClassView}.

Lemma execute_extends fuel fuel' class :
  (fuel ≤ fuel')%nat → extends (execute fuel class) (execute fuel' class).
Proof.
  intros Hle callee locals heap out r Hcall Hr. by apply (run_more_fuel fuel).
Qed.

(** The turns of the loop are the same under every interpreter of the
    calls that yields what [execute1] yields. *)
Lemma turns_extends execute1 execute2 method class n s s' :
  extends execute1 execute2 →
  turns execute1 method class n s = Some s' →
  turns execute2 method class n s = Some s'.
Proof.
  intros Hext. revert s. induction n as [|n IH]; intros s Hturns; [done|].
  simpl in *. destruct (pc s <? code_length (code_attribute method)); [|done].
  destruct (step execute1 method class s) as [[s1|]|] eqn:Hstep; try done.
  rewrite (step_extends _ _ _ _ _ _ Hext Hstep) by done. by apply IH.
Qed.

(** When the loop returns, it has made some turns to a state in which
    either [pc] is past the code or the turn returns. *)
Lemma run_turns fuel method class s ret heap' out' :
  run fuel method class s = Ok (ret, heap', out') →
  ∃ n s', turns (execute fuel class) method class n s = Some s'
    ∧ (code_length (code_attribute method) ≤ pc s'
       ∧ ret = {| has_value := false; value := 0 |}
       ∧ heap' = heap s' ∧ out' = stdout s'
       ∨ pc s' < code_length (code_attribute method)
         ∧ step (execute fuel class) method class s' = Ok (Return ret heap' out')).
Proof.
  revert s. induction fuel as [|fuel IH]; intros s Hrun; [done|].
  assert (extends (execute fuel class) (execute (S fuel) class)) as Hext
    by (apply execute_extends; lia).
  rewrite run_S in Hrun.
  destruct (Z.ltb_spec (pc s) (code_length (code_attribute method))) as [Hpc|Hpc].
  - apply bind_Ok in Hrun as ([s1 | ret1 heap1 out1] & Hstep & Hrun).
    + destruct (IH s1 Hrun) as (n & s' & Hturns & Hend).
      exists (S n), s'. split.
      * simpl. rewrite (proj2 (Z.ltb_lt _ _) Hpc).
        rewrite (step_extends _ _ _ _ _ _ Hext Hstep) by done.
        by apply (turns_extends (execute fuel class)).
      * destruct Hend as [Hend | [Hpc' Hret]]; [by left | right].
        split; [done|]. by apply (step_extends _ _ _ _ _ _ Hext Hret).
    + injection Hrun as -> -> ->. exists 0%nat, s. split; [done|]. right.
      split; [done|]. by apply (step_extends _ _ _ _ _ _ Hext Hstep).
  - injection Hrun as <- <- <-. exists 0%nat, s. split; [done|]. by left.
Qed.

(** What the loop yields from a state that it reaches, it yields from
    the state it started in. *)
Lemma turns_run fuel method class n s s' fuel1 r :
  turns (execute fuel class) method class n s = Some s' →
  run fuel1 method class s' = r → r ≠ Fault OutOfFuel →
  ∃ fuel', run fuel' method class s = r.
Proof.
  revert s. induction n as [|n IH]; intros s Hturns Hrun Hr.
  { injection Hturns as <-. by exists fuel1. }
  simpl in Hturns.
  destruct (Z.ltb_spec (pc s) (code_length (code_attribute method))) as [Hpc|];
    [|done].
  destruct (step (execute fuel class) method class s) as [[s1|]|] eqn:Hstep;
    try done.
  destruct (IH s1 Hturns Hrun Hr) as [fuel2 Hrun2].
  exists (S (fuel `max` fuel2)). rewrite run_S, (proj2 (Z.ltb_lt _ _) Hpc).
  rewrite (step_extends (execute fuel class) _ _ _ _ _
             (execute_extends fuel (fuel `max` fuel2) class ltac:(lia)) Hstep)
    by done.
  simpl. apply (run_more_fuel fuel2); [done | done | lia].
Qed.

End Turns.

(** X19. Where the result of [execute] comes from. When [execute]
    returns, its loop has made some turns from the entry state, without
    returning, to a state whose heap and output are the ones returned;
    a value is returned only when the next turn runs [ireturn] or
    [areturn] there, and it is the top of the stack, and void only when
    [pc] is past the code there or the next turn runs [return].
    Conversely, when the loop reaches [ireturn] or [areturn] with [x] on
    top of the stack, [execute] returns the value [x]. *)
Theorem execute_value_origin `{CV : ClassView} fuel class method locals0 heap0 out0 :
  (∀ ret heap' out',
     execute fuel class method locals0 heap0 out0 = Ok (ret, heap', out') →
     ∃ n s',
       turns (execute fuel class) method class n (entry method locals0 heap0 out0)
       = Some s'
       ∧ heap' = heap s' ∧ out' = stdout s'
       ∧ (has_value ret = true
          ∧ pc s' < code_length (code_attribute method)
          ∧ (∃ i, (i = i_ireturn ∨ i = i_areturn)
                  ∧ fetch method (pc s') = Ok (opcode i))
          ∧ load (operand_stack s') (stack_idx s' - 1) = Ok (value ret)
          ∨ has_value ret = false
            ∧ (code_length (code_attribute method) ≤ pc s'
               ∨ fetch method (pc s') = Ok (opcode i_return))))
  ∧ (∀ n s' i x,
       turns (execute fuel class) method class n (entry method locals0 heap0 out0)
       = Some s' →
       pc s' < code_length (code_attribute method) →
       i = i_ireturn ∨ i = i_areturn →
       fetch method (pc s') = Ok (opcode i) →
       load (operand_stack s') (stack_idx s' - 1) = Ok x →
       ∃ fuel', execute fuel' class method locals0 heap0 out0
                = Ok ({| has_value := true; value := x |}, heap s', stdout s')).
Proof.
  split.
  - intros ret heap' out' Hrun.
    destruct (run_turns _ _ _ _ _ _ _ Hrun)
      as (n & s' & Hturns & [(Hpc & -> & -> & ->) | [Hpc Hstep]]).
    { exists n, s'. split; [done|]. split; [done|]. split; [done|]. right.
      split; [done | by left]. }
    destruct (step_Return_opcode _ _ _ _ _ _ _ Hstep)
      as (-> & -> & i & Hf & [[-> Hvoid] | (Hi & Hvalue & Htop)]);
      exists n, s'; (split; [done|]); (split; [done|]); (split; [done|]).
    + right. split; [done | by right].
    + left. split; [done|]. split; [done|]. split; [by exists i | done].
  - intros n s' i x Hturns Hpc Hi Hf Htop.
    apply (turns_run _ _ _ _ _ _ 1%nat _ Hturns); [|done].
    apply run_Return; [done|]. by apply (value_return_step _ _ _ _ i).
Qed.

(** [sub(7, 3)] returns 4 through [ireturn], after three turns. *)
Lemma execute_value_origin_witness :
  ∃ n s',
    turns (CV := class_view) (execute (CV := class_view) 10 sub_class)
          sub_method sub_class n (entry sub_method [7; 3] heap_init [])
    = Some s'
    ∧ heap_init = heap s' ∧ [] = stdout s'
    ∧ (true = true
       ∧ pc s' < code_length (code_attribute sub_method)
       ∧ (∃ i, (i = i_ireturn ∨ i = i_areturn)
               ∧ fetch sub_method (pc s') = Ok (opcode i))
       ∧ load (operand_stack s') (stack_idx s' - 1) = Ok 4
       ∨ true = false
         ∧ (code_length (code_attribute sub_method) ≤ pc s'
            ∨ fetch sub_method (pc s') = Ok (opcode i_return))).
Proof.
  exact (proj1 (execute_value_origin (CV := class_view) 10 sub_class sub_method
                  [7; 3] heap_init [])
           {| has_value := true; value := 4 |} heap_init [] eq_refl).
Defined.

(** Settles one way of an outcome of [main] in one case of its
    definition. *)
Ltac outcome :=
  repeat split; intros;
  repeat match goal with
  | H : _ ∧ _ |- _ => destruct H
  | H : _ ∨ _ |- _ => destruct H
  | H : ∃ _, _ |- _ => destruct H
  end;
  simplify_eq;
  try match goal with
  | H : ∀ e, AssertionFailure ?x ≠ AssertionFailure e |- _ => by destruct (H x)
  end;
  try done; try congruence; eauto 20.

(** X20. The outcomes of [main], each exactly when it occurs. It exits
    with the status 1, having printed nothing, on a wrong number of
    arguments, and with the status 0 and the lines that [execute]
    printed when the file opened and closed, the class has a [main] and
    [execute] returned void for it. It fails an assertion in five
    cases, the four assertions of [main] and the one of [execute]: the
    file did not open, it did not close, the class has no [main],
    [execute] met a zero divisor, or [execute] returned a value. Every
    other fault is one of [execute]. *)
Theorem main_outcomes `{CV : ClassView} fuel argc class_file error :
  (∀ status out,
     main fuel argc class_file error = Ok (status, out)
     ↔ argc ≠ 2 ∧ status = 1 ∧ out = []
       ∨ argc = 2 ∧ status = 0 ∧ error = 0
         ∧ ∃ class main_method ret heap',
             class_file = Some class
             ∧ find_method MAIN_METHOD MAIN_DESCRIPTOR class = Some main_method
             ∧ main_call fuel class main_method = Ok (ret, heap', out)
             ∧ has_value ret = false)
  ∧ (∀ e,
       main fuel argc class_file error = Fault (AssertionFailure e)
       ↔ argc = 2
         ∧ (class_file = None ∧ e = "Failed to open file"
            ∨ ∃ class, class_file = Some class
                ∧ (error ≠ 0 ∧ e = "Failed to close file"
                   ∨ error = 0
                     ∧ (find_method MAIN_METHOD MAIN_DESCRIPTOR class = None
                        ∧ e = "Missing main() method"
                        ∨ ∃ main_method,
                            find_method MAIN_METHOD MAIN_DESCRIPTOR class
                            = Some main_method
                            ∧ (main_call fuel class main_method
                               = Fault (AssertionFailure e)
                               ∧ e = divisor_assertion
                               ∨ ∃ ret heap' out,
                                   main_call fuel class main_method
                                   = Ok (ret, heap', out)
                                   ∧ has_value ret = true
                                   ∧ e = "main() should return void")))))
  ∧ (∀ f,
       (∀ e, f ≠ AssertionFailure e) →
       main fuel argc class_file error = Fault f
       ↔ argc = 2 ∧ error = 0
         ∧ ∃ class main_method,
             class_file = Some class
             ∧ find_method MAIN_METHOD MAIN_DESCRIPTOR class = Some main_method
             ∧ main_call fuel class main_method = Fault f).
Proof.
  unfold main, main_call.
  destruct (Z.eqb_spec argc 2) as [->|Hargc]; simpl.
  2:{ outcome. }
  destruct class_file as [class|].
  2:{ outcome. }
  destruct (Z.eqb_spec error 0) as [->|Herror]; simpl.
  2:{ outcome. }
  destruct (find_method MAIN_METHOD MAIN_DESCRIPTOR class) as [main_method|] eqn:Hfind.
  2:{ outcome. }
  destruct (execute fuel class main_method _ heap_init [])
    as [[[ret heap'] out']|f] eqn:Hexec; simpl.
  - destruct (has_value ret) eqn:Hvalue; simpl; outcome.
  - assert (∀ e, f = AssertionFailure e → e = divisor_assertion) as Hdivisor.
    { intros e ->.
      destruct (run_faults _ _ _ _ _ Hexec) as [? | [? | [= ->]]]; done. }
    outcome.
Qed.

(** The first scenario of the specification exits with the status 0. *)
Lemma main_outcomes_witness :
  2 ≠ 2 ∧ 0 = 1 ∧ [7] = []
  ∨ 2 = 2 ∧ 0 = 0 ∧ 0 = 0
    ∧ ∃ class main_method ret heap',
        Some scenario_1 = Some class
        ∧ find_method (ClassView := class_view) MAIN_METHOD MAIN_DESCRIPTOR class
          = Some main_method
        ∧ main_call (CV := class_view) 10 class main_method = Ok (ret, heap', [7])
        ∧ has_value ret = false.
Proof.
  exact (proj1 (proj1 (main_outcomes (CV := class_view) 10 2 (Some scenario_1) 0)
                  0 [7]) eq_refl).
Defined.

(** X21. What a turn of the loop may write: the locals change only in
    the cases of [istore], [astore], their short forms and [iinc], the
    heap only in those of [iastore], [newarray] and [invokestatic], the
    output only in those of [invokevirtual] and [invokestatic]. *)
Theorem step_footprint `{CV : ClassView} execute method class s i s' :
  fetch method (pc s) = Ok (opcode i) →
  step execute method class s = Ok (Continue s') →
  (writes_locals i = false → locals s' = locals s)
  ∧ (writes_heap i = false → heap s' = heap s)
  ∧ (writes_output i = false → stdout s' = stdout s).
Proof.
  intros Hf Hstep. destruct s as [pc stk idx loc hp out]. simpl in *.
  unfold step in Hstep. rewrite Hf in Hstep. simpl in Hstep.
  rewrite decode_opcode in Hstep.
  destruct i; simpl in Hstep; invert_step Hstep;
    try discriminate Hstep; injection Hstep as <-; simpl; done.
Qed.

(** [iadd] writes neither locals nor heap nor output. *)
Lemma step_footprint_witness :
  locals (State 1 [3; 2; 0; 0] 1 (replicate 4 0) heap_init [])
  = locals (with_operands [1; 2])
  ∧ heap (State 1 [3; 2; 0; 0] 1 (replicate 4 0) heap_init [])
    = heap (with_operands [1; 2])
  ∧ stdout (State 1 [3; 2; 0; 0] 1 (replicate 4 0) heap_init [])
    = stdout (with_operands [1; 2]).
Proof.
  destruct (step_footprint (CV := class_view) no_calls (snippet [0x60])
              no_class (with_operands [1; 2]) i_iadd
              (State 1 [3; 2; 0; 0] 1 (replicate 4 0) heap_init [])
              eq_refl eq_refl) as (Hlocals & Hheap & Hout).
  split; [apply Hlocals; reflexivity|].
  split; [apply Hheap; reflexivity | apply Hout; reflexivity].
Defined.

(** X22. The short forms of the loads and stores are contiguous: for [k]
    from 0 to 3, the opcode bytes [iload_0 + k] and [aload_0 + k] push
    the local [k], and the bytes [istore_0 + k] and [astore_0 + k] pop
    the top of the stack into the local [k]; references and integers are
    handled alike. *)
Theorem short_local_forms `{CV : ClassView} execute method class s k byte :
  0 ≤ k ≤ 3 →
  fetch method (pc s) = Ok byte →
  (byte = opcode i_iload_0 + k ∨ byte = opcode i_aload_0 + k →
   ∀ x, load (locals s) k = Ok x →
     0 ≤ stack_idx s < Z.of_nat (length (operand_stack s)) →
     step execute method class s = Ok (Continue (push_result s x 1)))
  ∧ (byte = opcode i_istore_0 + k ∨ byte = opcode i_astore_0 + k →
     ∀ x, load (operand_stack s) (stack_idx s - 1) = Ok x →
       k < Z.of_nat (length (locals s)) →
       step execute method class s
       = Ok (Continue (State (size_t (pc s + 1)) (operand_stack s)
                             (stack_idx s - 1) (<[Z.to_nat k := x]> (locals s))
                             (heap s) (stdout s)))).
Proof.
  intros Hk Hf.
  assert (k = 0 ∨ k = 1 ∨ k = 2 ∨ k = 3) as Hcases by lia.
  split; intros Hbyte x Hx Hroom; unfold push_result; revert Hx Hroom;
    destruct Hcases as [-> | [-> | [-> | ->]]], Hbyte as [-> | ->];
    open_case s Hf; intros Hx Hroom;
    repeat match goal with
    | |- context [int32_t ?b - opcode ?i] =>
        let k := eval vm_compute in (int32_t b - opcode i) in
        change (int32_t b - opcode i) with k
    end;
    rewrite Hx; simpl; by rewrite store_Ok by lia.
Qed.

(** [aload_2] pushes the local 2. *)
Lemma short_local_forms_witness :
  step (CV := class_view) no_calls (snippet [0x2c]) no_class
       (State 0 [0; 0] 0 [5; 6; 7] heap_init [])
  = Ok (Continue (push_result (State 0 [0; 0] 0 [5; 6; 7] heap_init []) 7 1)).
Proof.
  apply (proj1 (short_local_forms (CV := class_view) no_calls (snippet [0x2c])
                  no_class (State 0 [0; 0] 0 [5; 6; 7] heap_init []) 2 0x2c
                  ltac:(lia) eq_refl));
    [right; reflexivity | reflexivity | simpl; lia].
Defined.

(** X23. The two opcodes of [System.out.println(int)] do not look at
    their operand bytes: [getstatic] pushes nothing and only moves [pc]
    by three, and [invokevirtual], whatever method its bytes name, pops
    the top of the stack and prints it as one line. *)
Theorem println_ignores_operands `{CV : ClassView} execute method class s :
  (fetch method (pc s) = Ok (opcode i_getstatic) →
   step execute method class s
   = Ok (Continue (after s (size_t (pc s + 3)) (operand_stack s) (stack_idx s))))
  ∧ (fetch method (pc s) = Ok (opcode i_invokevirtual) →
     ∀ x, load (operand_stack s) (stack_idx s - 1) = Ok x →
       step execute method class s
       = Ok (Continue (State (size_t (pc s + 3)) (operand_stack s)
                             (stack_idx s - 1) (locals s) (heap s)
                             (stdout s ++ [x])))).
Proof.
  split; intros Hf.
  - by open_case s Hf.
  - intros x Hx. revert Hx. open_case s Hf. intros Hx. by rewrite Hx.
Qed.

(** [invokevirtual] as the last byte of the code prints the top. *)
Lemma println_ignores_operands_witness :
  step (CV := class_view) no_calls (snippet [0xb6]) no_class (with_operands [9])
  = Ok (Continue (State (size_t (0 + 3)) [9; 0; 0; 0] (1 - 1) (replicate 4 0)
                        heap_init ([] ++ [9]))).
Proof.
  exact (proj2 (println_ignores_operands (CV := class_view) no_calls
                  (snippet [0xb6]) no_class (with_operands [9]))
           eq_refl 9 eq_refl).
Defined.
